(** * FCM Excel to JSON: a shallow embedding of [app.py]

    The development follows the layout of the program: Python strings and
    the string methods the program calls, a small backtracking matcher for
    the season pattern, the numeric values held by table cells, the pandas
    column operations used by [normalize_df], schema validation, and the
    batch driver [_process_files] over an explicit world (clock, input
    files, output journal, log).

    Part I holds the definitions; Part II the properties. *)

From Stdlib Require Import String Ascii.
From Stdlib Require Import List ZArith NArith Lia Bool.
From Stdlib Require Import Sorting.Sorted Sorting.Permutation.
Import ListNotations.

Set Implicit Arguments.

(* ================================================================== *)
(** * Part I: definitions *)
(* ================================================================== *)

(** ** Python strings

    A Python [str] is a sequence of Unicode code points. *)

Definition char := N.
Definition str := list char.

(** ASCII literals of the source, as code points. *)
Fixpoint py (s : string) : str :=
  match s with
  | EmptyString => []
  | String a r => N_of_ascii a :: py r
  end.

(** U+2013, the en-dash of line 96. *)
Definition EN_DASH : char := 8211%N.

Definition char_eqb (a b : char) : bool := N.eqb a b.

Fixpoint str_eqb (a b : str) : bool :=
  match a, b with
  | [], [] => true
  | x :: a', y :: b' => char_eqb x y && str_eqb a' b'
  | _, _ => false
  end.

(** Membership test [x in xs] on strings. *)
Definition str_in (x : str) (xs : list str) : bool := existsb (str_eqb x) xs.

(** [Py_UNICODE_ISSPACE]: the characters [str.strip] removes and the
    pattern class [\s] accepts. *)
Definition is_space (c : char) : bool :=
  ((9 <=? c) && (c <=? 13) || (28 <=? c) && (c <=? 32)
   || (c =? 133) || (c =? 160) || (c =? 5760)
   || (8192 <=? c) && (c <=? 8202)
   || (c =? 8232) || (c =? 8233) || (c =? 8239) || (c =? 8287)
   || (c =? 12288))%N.

Fixpoint lstrip (s : str) : str :=
  match s with
  | c :: s' => if is_space c then lstrip s' else s
  | [] => []
  end.

Definition rstrip (s : str) : str := rev (lstrip (rev s)).

(** [str.strip()] *)
Definition strip (s : str) : str := rstrip (lstrip s).

(** [s.replace(old, new)] for a one-character [old], which is the only
    form the program uses (lines 94 to 97). *)
Definition replace (old : char) (new : str) (s : str) : str :=
  flat_map (fun c => if char_eqb c old then new else [c]) s.

(** Python compares strings by code point, lexicographically. *)
Fixpoint str_ltb (a b : str) : bool :=
  match a, b with
  | [], [] => false
  | [], _ :: _ => true
  | _ :: _, [] => false
  | x :: a', y :: b' => (x <? y)%N || (x =? y)%N && str_ltb a' b'
  end.

Definition str_leb (a b : str) : bool := negb (str_ltb b a).

(** ** Exceptions and results *)

Inductive exn :=
| ValueError_season      (* line 60 *)
| IntCastingNaNError     (* [astype(int)] on a non-finite value *)
| OSError.               (* a failed directory creation or file write *)

Inductive result (A : Type) :=
| Ok (a : A)
| Raise (e : exn).

Arguments Ok {A} a.
Arguments Raise {A} e.

Definition bind {A B} (r : result A) (f : A -> result B) : result B :=
  match r with
  | Ok a => f a
  | Raise e => Raise e
  end.

Notation "x <- r ;; k" := (bind r (fun x => k))
  (at level 61, r at next level, right associativity).

(** ** The season pattern

    A backtracking matcher in continuation-passing style for the fragment
    of [re] that line 58 uses: character classes, concatenation, a greedy
    star over a class, and numbered groups. *)

Inductive cclass :=
| CLit (c : char)
| CDigit                      (* \d *)
| CSpace                      (* \s *)
| COneOf (cs : list char).    (* [...] *)

Inductive regex :=
| RSym (p : cclass)
| RSeq (r1 r2 : regex)
| RStar (p : cclass)
| RGroup (n : nat) (r : regex).

Definition captures := list (nat * str).

Fixpoint group (m : captures) (n : nat) : str :=
  match m with
  | [] => []
  | (i, s) :: m' => if Nat.eqb i n then s else group m' n
  end.

Section SeasonExtractor.

(** [Py_UNICODE_ISDECIMAL], the Unicode decimal-digit table of the
    interpreter that [\d] consults; it is not part of the repository. *)
Variable is_decimal : char -> bool.

Definition cc_match (p : cclass) (c : char) : bool :=
  match p with
  | CLit a => char_eqb c a
  | CDigit => is_decimal c
  | CSpace => is_space c
  | COneOf cs => existsb (char_eqb c) cs
  end.

(** Greedy star: the longest run first, shorter runs on failure. *)
Fixpoint star {R} (p : cclass) (k : str -> option R) (s : str) : option R :=
  match s with
  | c :: s' =>
      if cc_match p c then
        match star p k s' with
        | Some r => Some r
        | None => k s
        end
      else k s
  | [] => k []
  end.

Fixpoint rmatch (r : regex) (s : str) (caps : captures)
         (k : str -> captures -> option captures) : option captures :=
  match r with
  | RSym p =>
      match s with
      | c :: s' => if cc_match p c then k s' caps else None
      | [] => None
      end
  | RSeq r1 r2 => rmatch r1 s caps (fun s' caps' => rmatch r2 s' caps' k)
  | RStar p => star p (fun s' => k s' caps) s
  | RGroup n r1 =>
      rmatch r1 s caps
        (fun s' caps' =>
           k s' ((n, firstn (length s - length s') s) :: caps'))
  end.

(** [re.search]: the match at the leftmost position that has one. *)
Fixpoint re_search (r : regex) (s : str) : option captures :=
  match rmatch r s [] (fun _ caps => Some caps) with
  | Some m => Some m
  | None =>
      match s with
      | [] => None
      | _ :: s' => re_search r s'
      end
  end.

(** [20\d{2}] *)
Definition YEAR : regex :=
  RSeq (RSym (CLit 50%N)) (RSeq (RSym (CLit 48%N))
       (RSeq (RSym CDigit) (RSym CDigit))).

Definition SEPARATORS : list char := [95; 47; 45]%N.   (* _ / - *)

(** [(20\d{2})\s*[_/\-]\s*(20\d{2})] *)
Definition SEASON_RE : regex :=
  RSeq (RGroup 1 YEAR)
    (RSeq (RStar CSpace)
       (RSeq (RSym (COneOf SEPARATORS))
          (RSeq (RStar CSpace) (RGroup 2 YEAR)))).

Definition extract_season_from_filename (stem : str) : result (str * str) :=
  match re_search SEASON_RE stem with
  | None => Raise ValueError_season
  | Some m =>
      let y1 := group m 1 in
      let y2 := group m 2 in
      Ok (y1 ++ py "/" ++ y2, y1 ++ py "_" ++ y2)
  end.

End SeasonExtractor.

(** ** Numbers

    A cell of a numeric column holds a Python [int] or a binary64 float.
    Floats are modelled by the decimal number they print as: a sign, a
    decimal significand and a decimal exponent, in the canonical form where
    the significand has no trailing zero (zero is [0 * 10^0]), next to the
    two infinities and NaN.  Arithmetic on them is exact: the binary
    rounding of binary64, its range limits, and the 17-digit cut of the
    pandas parser are outside the model.  Integers are unbounded. *)

Inductive float :=
| FNaN
| FInf (neg : bool)
| FFin (neg : bool) (m : N) (e : Z).    (* (-1)^neg * m * 10^e *)

(** Strip trailing decimal zeros of the significand. *)
Fixpoint strip10 (fuel : nat) (m : N) (e : Z) : N * Z :=
  match fuel with
  | O => (m, e)
  | S f => if (m mod 10 =? 0)%N then strip10 f (m / 10)%N (e + 1)%Z else (m, e)
  end.

Definition fnorm (neg : bool) (m : N) (e : Z) : float :=
  if (m =? 0)%N then FFin neg 0 0
  else let (m', e') := strip10 (S (N.to_nat (N.log2 m))) m e in FFin neg m' e'.

Definition float_of_Z (z : Z) : float := fnorm (z <? 0)%Z (Z.abs_N z) 0.

(** ** Printing numbers: [str(int)] and [repr(float)] *)

Fixpoint digits_aux (fuel : nat) (n : N) (acc : str) : str :=
  match fuel with
  | O => acc
  | S f =>
      let acc' := (48 + n mod 10)%N :: acc in
      if (n / 10 =? 0)%N then acc' else digits_aux f (n / 10)%N acc'
  end.

(** The decimal digits of [n], most significant first. *)
Definition digits (n : N) : str := digits_aux (S (N.to_nat (N.log2 n))) n [].

Definition int_repr (z : Z) : str :=
  (if (z <? 0)%Z then py "-" else []) ++ digits (Z.abs_N z).

Definition zeros (n : nat) : str := repeat 48%N n.

(** The exponent suffix of [repr]: a sign and at least two digits. *)
Definition exp_repr (x : Z) : str :=
  py "e" ++ (if (x <? 0)%Z then py "-" else py "+")
  ++ (if (Z.abs_N x <? 10)%N then py "0" else []) ++ digits (Z.abs_N x).

(** [repr] of a finite non-negative float: the shortest digit string,
    in exponent form when the decimal point position [decpt] is at most
    [-4] or above [16], in positional form otherwise. *)
Definition finite_repr (m : N) (e : Z) : str :=
  if (m =? 0)%N then py "0.0"
  else
    let ds := digits m in
    let n := Z.of_nat (length ds) in
    let decpt := (n + e)%Z in
    if ((decpt <=? -4) || (16 <? decpt))%Z then
      match ds with
      | [] => []
      | [d] => d :: exp_repr (decpt - 1)
      | d :: rest => d :: py "." ++ rest ++ exp_repr (decpt - 1)
      end
    else if (decpt <=? 0)%Z then py "0." ++ zeros (Z.to_nat (- decpt)) ++ ds
    else if (n <=? decpt)%Z then ds ++ zeros (Z.to_nat (decpt - n)) ++ py ".0"
    else firstn (Z.to_nat decpt) ds ++ py "." ++ skipn (Z.to_nat decpt) ds.

Definition float_repr (f : float) : str :=
  match f with
  | FNaN => py "nan"
  | FInf neg => (if neg then py "-" else []) ++ py "inf"
  | FFin neg m e =>
      match fnorm neg m e with
      | FFin _ m' e' => (if neg then py "-" else []) ++ finite_repr m' e'
      | _ => []
      end
  end.

(** ** Parsing numbers: the pandas string-to-double routine

    [to_double] follows [precise_xstrtod] with decimal point [.] and
    exponent letter [E], trailing whitespace skipped, and the whole string
    required to be consumed.  The flag returned with the value is
    [maybe_int]: no decimal point and no exponent were seen. *)

Definition is_digit (c : char) : bool := ((48 <=? c) && (c <=? 57))%N.

Definition is_space_ascii (c : char) : bool :=
  ((c =? 32) || (9 <=? c) && (c <=? 13))%N.

Fixpoint span (p : char -> bool) (s : str) : str * str :=
  match s with
  | c :: s' =>
      if p c then let (a, b) := span p s' in (c :: a, b) else ([], s)
  | [] => ([], [])
  end.

(** [number = number * 10 + (c - '0')] over a run of digits. *)
Definition digits_val (ds : str) : N :=
  fold_left (fun n c => (n * 10 + (c - 48))%N) ds 0%N.

Definition read_sign (s : str) : bool * str :=
  match s with
  | c :: s' =>
      if (c =? 45)%N then (true, s')          (* - *)
      else if (c =? 43)%N then (false, s')    (* + *)
      else (false, s)
  | [] => (false, s)
  end.

Definition read_fraction (s : str) : option str * str :=
  match s with
  | c :: s' =>
      if (c =? 46)%N                          (* . *)
      then let (fp, r) := span is_digit s' in (Some fp, r)
      else (None, s)
  | [] => (None, s)
  end.

(** The exponent part; when no digit follows the letter it is left
    unread, so the parse stops in front of it. *)
Definition read_exponent (s : str) : option Z * str :=
  match s with
  | c :: s' =>
      if ((c =? 101) || (c =? 69))%N then
        let (eneg, s1) := read_sign s' in
        let (ed, s2) := span is_digit s1 in
        match ed with
        | [] => (None, s)
        | _ => (Some (if eneg then - Z.of_N (digits_val ed)
                      else Z.of_N (digits_val ed))%Z, s2)
        end
      else (None, s)
  | [] => (None, s)
  end.

Definition to_double (s : str) : option (float * bool) :=
  let s0 := snd (span is_space_ascii s) in
  let (neg, s1) := read_sign s0 in
  let (ip, s2) := span is_digit s1 in
  let (fp, s3) := read_fraction s2 in
  let fds := match fp with Some d => d | None => [] end in
  match ip ++ fds with
  | [] => None
  | _ =>
      let (ex, s4) := read_exponent s3 in
      let x := match ex with Some x => x | None => 0%Z end in
      match snd (span is_space_ascii s4) with
      | [] =>
          Some (fnorm neg (digits_val (ip ++ fds)) (x - Z.of_nat (length fds)),
                match fp, ex with None, None => true | _, _ => false end)
      | _ => None
      end
  end.

Definition ascii_lower (c : char) : char :=
  if ((65 <=? c) && (c <=? 90))%N then (c + 32)%N else c.

(** [floatify]: [to_double], and on failure the spellings of infinity,
    compared without regard to case. *)
Definition floatify (s : str) : option (float * bool) :=
  match to_double s with
  | Some r => Some r
  | None =>
      let l := map ascii_lower s in
      if str_in l [py "inf"; py "+inf"; py "infinity"; py "+infinity"]
      then Some (FInf false, false)
      else if str_in l [py "-inf"; py "-infinity"]
      then Some (FInf true, false)
      else None
  end.

(** ** Cells, columns and tables *)

Inductive cell :=
| CStr (s : str)
| CInt (z : Z)
| CFloat (f : float).

(** The missing-value marker of pandas. *)
Definition NaN : cell := CFloat FNaN.

Definition column := list cell.

(** A table: its columns in order, each with its name. *)
Definition DataFrame := list (str * column).

Definition columns (df : DataFrame) : list str := map fst df.

(** [df[c]] *)
Fixpoint getcol (df : DataFrame) (c : str) : column :=
  match df with
  | [] => []
  | (n, col) :: df' => if str_eqb n c then col else getcol df' c
  end.

(** [df[c] = v] for a column that exists. *)
Definition setcol (df : DataFrame) (c : str) (v : column) : DataFrame :=
  map (fun nc => if str_eqb (fst nc) c then (fst nc, v) else nc) df.

(** ** The pandas column operations of [normalize_df] *)

(** [.astype(str)], cell by cell. *)
Definition astype_str (x : cell) : str :=
  match x with
  | CStr s => s
  | CInt z => int_repr z
  | CFloat f => float_repr f
  end.

(** What [pd.to_numeric(..., errors="coerce")] reads in one cell: an
    integer, or a float (NaN when the cell does not parse). *)
Inductive num :=
| NInt (z : Z)
| NFloat (f : float).

(** A string goes through [floatify]; when that succeeds with [maybe_int]
    set the string is read again by [int(val)], which gives the same
    integer. *)
Definition parse_cell (x : cell) : num :=
  match x with
  | CInt z => NInt z
  | CFloat f => NFloat f
  | CStr s =>
      match floatify s with
      | Some (FFin neg m e, true) =>
          NInt (if neg then - Z.of_N m * 10 ^ e else Z.of_N m * 10 ^ e)%Z
      | Some (f, _) => NFloat f
      | None => NFloat FNaN
      end
  end.

Definition num_is_int (n : num) : bool :=
  match n with NInt _ => true | NFloat _ => false end.

Definition num_float (n : num) : float :=
  match n with NInt z => float_of_Z z | NFloat f => f end.

(** The result is an integer column when every cell read as an integer,
    and a float column otherwise. *)
Definition to_numeric (col : column) : column :=
  let ns := map parse_cell col in
  if forallb num_is_int ns
  then map (fun n => match n with NInt z => CInt z | NFloat f => CFloat f end) ns
  else map (fun n => CFloat (num_float n)) ns.

(** Round half to even at the second decimal. *)
Definition round2 (f : float) : float :=
  match f with
  | FFin neg m e =>
      if (-2 <=? e)%Z then f
      else
        let q := (10 ^ Z.to_N (- e - 2))%N in
        let k := (m / q)%N in
        let r := (m mod q)%N in
        let k' := if (q <? 2 * r)%N then (k + 1)%N
                  else if (2 * r =? q)%N then (k + k mod 2)%N
                  else k in
        fnorm neg k' (-2)
  | _ => f
  end.

(** [.round(2)] *)
Definition round_cell (x : cell) : cell :=
  match x with
  | CFloat f => CFloat (round2 f)
  | _ => x
  end.

(** [.fillna(0)] *)
Definition fillna0 (x : cell) : cell :=
  match x with
  | CFloat FNaN => CFloat (FFin false 0 0)
  | _ => x
  end.

(** [.astype(int)] truncates a finite float toward zero and raises on a
    non-finite one. *)
Definition astype_int (x : cell) : result cell :=
  match x with
  | CInt z => Ok (CInt z)
  | CFloat (FFin neg m e) =>
      let a := (if (0 <=? e)%Z then Z.of_N m * 10 ^ e
                else Z.of_N m / 10 ^ (- e))%Z in
      Ok (CInt (if neg then - a else a)%Z)
  | CFloat _ => Raise IntCastingNaNError
  | CStr _ => Raise IntCastingNaNError
  end.

Fixpoint mapM {A B} (f : A -> result B) (l : list A) : result (list B) :=
  match l with
  | [] => Ok []
  | a :: l' => b <- f a ;; bs <- mapM f l' ;; Ok (b :: bs)
  end.

(** ** Constants and configuration (lines 30 to 45) *)

Definition SHEET_NAME : str := py "Tutti i dati".

Definition REQUIRED_COLUMNS : list str := map py
  ["Nome";"Sq";"R";"COD";"FMld";"T";"P";"Aff%";
   "MVC";"MVF";"MVT";"MVDSt";"MVDlt";"MVAnd";"MVRnd";
   "FMC";"FMF";"FMT";"FMDSt";"FMDlt";"FMAnd";"FMRnd";
   "GF";"GFR";"GS";"GSR";"AG";"AS";"RP";"RS";"A";"E";"TIn";"ID"]%string.

Definition FLOAT_COLS : list str := map py
  ["FMld";"Aff%";"MVC";"MVF";"MVT";"MVDSt";"MVDlt";"MVAnd";"MVRnd";
   "FMC";"FMF";"FMT";"FMDSt";"FMDlt";"FMAnd";"FMRnd"]%string.

Definition INT_COLS : list str := map py
  ["T";"P";"GF";"GFR";"GS";"GSR";"AG";"AS";"RP";"RS";"A";"E";"TIn"]%string.

Definition STR_COLS : list str := map py ["Nome";"Sq";"R";"COD";"ID"]%string.

(** ** [normalize_df] (lines 76 to 107) *)

(** [for c in df.columns: ...], the body threading the table. *)
Fixpoint for_columns (cs : list str)
         (body : str -> DataFrame -> result DataFrame)
         (df : DataFrame) : result DataFrame :=
  match cs with
  | [] => Ok df
  | c :: cs' => df' <- body c df ;; for_columns cs' body df'
  end.

(** Lines 87: [df[c].astype(str).str.strip()] *)
Definition trim_column (col : column) : column :=
  map (fun x => CStr (strip (astype_str x))) col.

(** Lines 92 to 98: the cleaned strings of a float column. *)
Definition clean_cell (x : cell) : cell :=
  let s := strip (astype_str x) in
  CStr (replace 45%N [] (replace EN_DASH [] (replace 44%N (py ".")
         (replace 37%N [] s)))).

(** Line 99: [pd.to_numeric(s, errors="coerce").round(2)] *)
Definition float_column (col : column) : column :=
  map round_cell (to_numeric (map clean_cell col)).

(** Lines 104 and 105 *)
Definition int_column (col : column) : result column :=
  mapM astype_int (map fillna0 (to_numeric col)).

Definition normalize_df (df : DataFrame) : result DataFrame :=
  df1 <- for_columns (columns df)
           (fun c df =>
              if str_in c STR_COLS
              then Ok (setcol df c (trim_column (getcol df c)))
              else Ok df) df ;;
  df2 <- for_columns (columns df1)
           (fun c df =>
              if str_in c FLOAT_COLS
              then Ok (setcol df c (float_column (getcol df c)))
              else Ok df) df1 ;;
  for_columns (columns df2)
    (fun c df =>
       if str_in c INT_COLS
       then col <- int_column (getcol df c) ;; Ok (setcol df c col)
       else Ok df) df2.

(** ** [ensure_required_columns] (lines 110 to 112) *)

Definition ensure_required_columns (df : DataFrame) : list str :=
  filter (fun c => negb (str_in c (columns df))) REQUIRED_COLUMNS.

(** ** Paths ([pathlib]) *)

Record Path := { parent : str; name : str }.

(** [name.rfind('.')] *)
Fixpoint rfind_from (c : char) (s : str) (i : nat) (acc : option nat)
  : option nat :=
  match s with
  | [] => acc
  | x :: s' => rfind_from c s' (S i) (if char_eqb x c then Some i else acc)
  end.

Definition has_suffix (nm : str) : option nat :=
  match rfind_from 46%N nm 0 None with
  | Some i => if (0 <? i) && (i <? length nm - 1) then Some i else None
  | None => None
  end.

Definition suffix (p : Path) : str :=
  match has_suffix (name p) with
  | Some i => skipn i (name p)
  | None => []
  end.

Definition stem (p : Path) : str :=
  match has_suffix (name p) with
  | Some i => firstn i (name p)
  | None => name p
  end.

(** ** Sorting and dictionaries *)

Section Sorted.

Variable A : Type.
Variable key : A -> str.

Fixpoint insert_by (x : A) (l : list A) : list A :=
  match l with
  | [] => [x]
  | y :: l' =>
      if str_leb (key x) (key y) then x :: l else y :: insert_by x l'
  end.

(** [sorted(l, key=key)]: a stable sort on the keys. *)
Definition sorted (l : list A) : list A := fold_right insert_by [] l.

End Sorted.

(** A [dict] with string keys, in insertion order. *)
Definition dict (V : Type) := list (str * V).

Fixpoint dict_set {V} (d : dict V) (k : str) (v : V) : dict V :=
  match d with
  | [] => [(k, v)]
  | (k', v') :: d' =>
      if str_eqb k' k then (k', v) :: d' else (k', v') :: dict_set d' k v
  end.

Fixpoint dict_get {V} (d : dict V) (k : str) : option V :=
  match d with
  | [] => None
  | (k', v) :: d' => if str_eqb k' k then Some v else dict_get d' k
  end.

Definition dict_keys {V} (d : dict V) : list str := map fst d.

(** ** Output documents *)

Record summary := {
  label : str;
  key : str;
  file : str;
  n_players : nat;
  last_updated : str
}.

Inductive json :=
| SeasonDoc (schema_version : Z) (season_label season_key generated_at : str)
            (cols : list str) (players : list (list (str * cell)))
| ManifestDoc (schema_version : Z) (seasons : list summary)
| Truncated.     (* what a write that raised half-way leaves behind *)

(** [len(df)] *)
Definition nrows (df : DataFrame) : nat :=
  match df with
  | [] => 0
  | (_, col) :: _ => length col
  end.

(** [df.to_dict(orient="records")] *)
Definition to_dict_records (df : DataFrame) : list (list (str * cell)) :=
  map (fun i => map (fun nc => (fst nc, nth i (snd nc) NaN)) df)
      (seq 0 (nrows df)).

(** Lines 216 and 217: one entry per key, the last one listed, in
    ascending order of the keys. *)
Definition merge_manifest (seasons : list summary) : list summary :=
  let dedup := fold_left (fun d s => dict_set d (key s) s) seasons [] in
  flat_map (fun k => match dict_get dedup k with
                     | Some s => [s]
                     | None => []     (* no KeyError: [k] is a key of [dedup] *)
                     end)
           (sorted (fun k => k) (dict_keys dedup)).

(** ** The host and the world

    What the run reads from its surroundings is gathered in [host]; what
    it changes is the [world]: how often the clock was read, the JSON
    files of the output directory as a journal of writes (newest first),
    the number of writes attempted, and the log. *)

Inductive engine := Openpyxl | Xlrd.

(** How a call of [write_text] ends: the file is replaced; or the call
    raises before the file is opened; or it raises after the file was
    opened for writing, which leaves it truncated. *)
Inductive write_outcome := WriteOk | WriteFailsEarly | WriteFailsLate.

Record host := {
  uni_decimal : char -> bool;           (* the table behind [\d] *)
  lower : str -> str;                   (* [str.lower] *)
  is_file : Path -> bool;               (* [p.is_file()] *)
  pd_read_excel : Path -> str -> engine -> option DataFrame;
  mkdir_fails : bool;                   (* [output_dir.mkdir] raises *)
  utc_clock : nat -> str;               (* successive [utcnow().isoformat] *)
  write_ends : nat -> write_outcome     (* how each write ends *)
}.

Inductive log_line :=
| LogNoFiles
| LogReading (nm : str)
| LogSkipSeason
| LogDuplicate (k : str)
| LogReadError
| LogMissing (missing : list str)
| LogWriteError (f : str)
| LogOk (f : str) (rows : nat)
| LogManifestOk (n : nat)
| LogManifestError
| LogNothing.

Record world := {
  clock_reads : nat;
  disk : list (str * json);
  writes : nat;
  logged : list log_line
}.

Definition log (w : world) (l : log_line) : world :=
  {| clock_reads := clock_reads w; disk := disk w; writes := writes w;
     logged := l :: logged w |}.

(** [datetime.utcnow().isoformat(timespec="seconds")] *)
Definition utcnow (h : host) (w : world) : str * world :=
  (utc_clock h (clock_reads w),
   {| clock_reads := S (clock_reads w); disk := disk w; writes := writes w;
      logged := logged w |}).

(** [write_json] (lines 115 and 116) *)
Definition write_json (h : host) (w : world) (path : str) (data : json)
  : result unit * world :=
  let put d :=
    {| clock_reads := clock_reads w; disk := d;
       writes := S (writes w); logged := logged w |} in
  match write_ends h (writes w) with
  | WriteOk => (Ok tt, put ((path, data) :: disk w))
  | WriteFailsEarly => (Raise OSError, put (disk w))
  | WriteFailsLate => (Raise OSError, put ((path, Truncated) :: disk w))
  end.

(** [read_excel_with_engine] (lines 65 to 73) *)
Definition read_excel_with_engine (h : host) (fp : Path) (sheet_name : str)
  : option DataFrame :=
  if str_eqb (lower h (suffix fp)) (py ".xlsx")
  then pd_read_excel h fp sheet_name Openpyxl
  else pd_read_excel h fp sheet_name Xlrd.

(** ** [_process_files] (lines 127 to 225) *)

Inductive outcome :=
| Returned
| Raised (e : exn).

Record run_state := {
  seasons : list summary;
  seen_seasons : list str;
  rworld : world
}.

(** The body of the loop at line 154 for one file; [Returned] covers both
    [continue] and falling through to the end of the body. *)
Definition process_file (h : host) (raw_mode : bool) (now_iso : str)
           (fp : Path) (st : run_state) : outcome * run_state :=
  let w := log (rworld st) (LogReading (name fp)) in
  match extract_season_from_filename (uni_decimal h) (stem fp) with
  | Raise _ =>
      (Returned, {| seasons := seasons st; seen_seasons := seen_seasons st;
                    rworld := log w LogSkipSeason |})
  | Ok (season_label, season_key) =>
      let w := if str_in season_key (seen_seasons st)
               then log w (LogDuplicate season_key) else w in
      let seen := season_key :: seen_seasons st in
      match read_excel_with_engine h fp SHEET_NAME with
      | None =>
          (Returned, {| seasons := seasons st; seen_seasons := seen;
                        rworld := log w LogReadError |})
      | Some df =>
          match ensure_required_columns df with
          | (_ :: _) as missing =>
              (Returned, {| seasons := seasons st; seen_seasons := seen;
                            rworld := log w (LogMissing missing) |})
          | [] =>
              match (if raw_mode then Ok df else normalize_df df) with
              | Raise e =>
                  (Raised e, {| seasons := seasons st; seen_seasons := seen;
                                rworld := w |})
              | Ok df =>
                  let out :=
                    SeasonDoc 1 season_label season_key now_iso
                              (columns df) (to_dict_records df) in
                  let out_path := season_key ++ py ".json" in
                  match write_json h w out_path out with
                  | (Raise _, w) =>
                      (Returned,
                       {| seasons := seasons st; seen_seasons := seen;
                          rworld := log w (LogWriteError out_path) |})
                  | (Ok _, w) =>
                      (Returned,
                       {| seasons :=
                            seasons st ++
                            [{| label := season_label; key := season_key;
                                file := out_path; n_players := nrows df;
                                last_updated := now_iso |}];
                          seen_seasons := seen;
                          rworld := log w (LogOk out_path (nrows df)) |})
                  end
              end
          end
      end
  end.

Fixpoint process_loop (h : host) (raw_mode : bool) (now_iso : str)
         (files : list Path) (st : run_state) : outcome * run_state :=
  match files with
  | [] => (Returned, st)
  | fp :: rest =>
      match process_file h raw_mode now_iso fp st with
      | (Returned, st') => process_loop h raw_mode now_iso rest st'
      | (Raised e, st') => (Raised e, st')
      end
  end.

(** Lines 136 to 138: the candidates that are files with a supported
    extension, by name without regard to case. *)
Definition candidate_files (h : host) (files : list Path) : list Path :=
  sorted (fun p => lower h (name p))
    (filter (fun p => is_file h p
                      && str_in (lower h (suffix p)) [py ".xls"; py ".xlsx"])
            files).

Definition MANIFEST_FILE : str := py "seasons.json".

(** Lines 215 to 225 *)
Definition update_manifest (h : host) (st : run_state) : world :=
  match seasons st with
  | _ :: _ =>
      let seasons_sorted := merge_manifest (seasons st) in
      let manifest := ManifestDoc 1 seasons_sorted in
      match write_json h (rworld st) MANIFEST_FILE manifest with
      | (Ok _, w) => log w (LogManifestOk (length seasons_sorted))
      | (Raise _, w) => log w LogManifestError
      end
  | [] => log (rworld st) LogNothing
  end.

(** The state in which the loop at line 154 ends. *)
Definition run_files (h : host) (files : list Path) (raw_mode : bool)
           (w : world) : str * (outcome * run_state) :=
  let (now, w) := utcnow h w in
  let now_iso := now ++ py "Z" in
  (now_iso,
   process_loop h raw_mode now_iso (candidate_files h files)
     {| seasons := []; seen_seasons := []; rworld := w |}).

Definition _process_files (h : host) (files : list Path) (raw_mode : bool)
           (w : world) : outcome * world :=
  if mkdir_fails h then (Raised OSError, w)
  else
    match candidate_files h files with
    | [] => (Returned, log (snd (utcnow h w)) LogNoFiles)
    | _ :: _ =>
        match snd (run_files h files raw_mode w) with
        | (Raised e, st) => (Raised e, rworld st)
        | (Returned, st) => (Returned, update_manifest h st)
        end
    end.

(** ** [main]: the files of the input field (lines 272 and 282 to 285) *)

(** The class [[;\n,]] of line 284. *)
Definition is_list_sep (c : char) : bool :=
  ((c =? 59) || (c =? 10) || (c =? 44))%N.

(** [re.split(r"[;\n,]+", s)]: the pieces of [s] between the maximal runs
    of separators; a run at either end of [s] leaves an empty piece
    there, and a text without separators is its own single piece. *)
Fixpoint re_split (s : str) : list str :=
  match s with
  | [] => [[]]
  | c :: s' =>
      if is_list_sep c then
        match s' with
        | c' :: _ => if is_list_sep c' then re_split s' else [] :: re_split s'
        | [] => [] :: re_split s'
        end
      else
        match re_split s' with
        | p :: ps => (c :: p) :: ps
        | [] => [[c]]
        end
  end.

(** [s.strip(q)] for a one-character [q]; at line 285 [q] is the double
    quote. *)
Fixpoint lstrip_char (q : char) (s : str) : str :=
  match s with
  | c :: s' => if char_eqb c q then lstrip_char q s' else s
  | [] => []
  end.

Definition strip_char (q : char) (s : str) : str :=
  rev (lstrip_char q (rev (lstrip_char q s))).

Definition QUOTE : char := 34%N.

(** The texts that line 285 hands to [Path], from the content of the
    input field; [None] when the field is blank, in which case [main]
    turns to the input folder. *)
Definition selected_files (field : str) : option (list str) :=
  match strip field with
  | [] => None
  | (_ :: _) as files_str =>
      Some (map (fun p => strip_char QUOTE (strip p))
                (filter (fun p => match strip p with [] => false | _ => true end)
                        (re_split files_str)))
  end.

(** ** The vocabulary of the properties

    The predicates and auxiliary functions in which Part II states what
    the program does. *)

Section SeasonSpec.

Variable is_decimal : char -> bool.

(** The declarative reading of the pattern: a year is [20] and two
    decimal digits. *)
Definition is_year (y : str) : Prop :=
  exists d1 d2, y = [50; 48; d1; d2]%N
                /\ is_decimal d1 = true /\ is_decimal d2 = true.

(** At position [i] the stem [s] holds the year [y1], whitespace, a
    separator, whitespace and the year [y2]. *)
Definition season_at (s : str) (i : nat) (y1 y2 : str) : Prop :=
  exists pre ws1 c ws2 post,
    s = pre ++ y1 ++ ws1 ++ c :: ws2 ++ y2 ++ post
    /\ length pre = i
    /\ is_year y1 /\ is_year y2
    /\ Forall (fun w => is_space w = true) ws1
    /\ Forall (fun w => is_space w = true) ws2
    /\ In c SEPARATORS.

(** The continuation that ends a match. *)
Definition k_done : str -> captures -> option captures := fun _ caps => Some caps.

(** [rest] does not begin with a character of class [p]. *)
Definition stops (p : cclass) (rest : str) : Prop :=
  match rest with
  | c :: _ => cc_match is_decimal p c = false
  | [] => True
  end.

(** [i] is the leftmost position of [s] that holds a season. *)
Definition first_season_at (s : str) (i : nat) (y1 y2 : str) : Prop :=
  season_at s i y1 y2 /\ forall j a b, j < i -> ~ season_at s j a b.

End SeasonSpec.

(** The label and the key of a season. *)
Definition season_label (y1 y2 : str) : str := y1 ++ py "/" ++ y2.

Definition season_key (y1 y2 : str) : str := y1 ++ py "_" ++ y2.

(** [l1] keeps some elements of [l2], in the order of [l2]. *)
Inductive subseq {A} : list A -> list A -> Prop :=
| subseq_nil : subseq [] []
| subseq_skip x l1 l2 : subseq l1 l2 -> subseq l1 (x :: l2)
| subseq_keep x l1 l2 : subseq l1 l2 -> subseq (x :: l1) (x :: l2).

(** A table that has every required column but [COD] and [ID], and two
    columns of its own. *)
Definition table_without_COD_ID : DataFrame :=
  (py "Note", [CStr (py "x")])
  :: map (fun c => (c, [CInt 1]))
       (filter (fun c => negb (str_in c [py "COD"; py "ID"])) REQUIRED_COLUMNS)
  ++ [(py "Extra", [NaN])].

(** The order of [sorted] on keys. *)
Definition key_le A (kf : A -> str) (a b : A) : Prop :=
  str_leb (kf a) (kf b) = true.

(** The dictionary of line 216, built up from [d]. *)
Definition dedup_from (d : dict summary) (l : list summary) : dict summary :=
  fold_left (fun d s => dict_set d (key s) s) l d.

(** The last entry of [l] with key [k]. *)
Fixpoint last_with (k : str) (l : list summary) : option summary :=
  match l with
  | [] => None
  | s :: l' =>
      match last_with k l' with
      | Some t => Some t
      | None => if str_eqb (key s) k then Some s else None
      end
  end.

(** [s] is the last entry of [l] that carries its key. *)
Definition last_of_its_key (l : list summary) (s : summary) : Prop :=
  exists l1 l2, l = l1 ++ s :: l2 /\ forall t, In t l2 -> key t <> key s.

(** Strictly ascending keys. *)
Definition key_lt (a b : summary) : Prop := str_ltb (key a) (key b) = true.

(** The summary [s] under the key [k]. *)
Definition with_key (s : summary) (k : str) : summary :=
  {| label := label s; key := k; file := file s;
     n_players := n_players s; last_updated := last_updated s |}.

(** Every timestamp in the document [j] is [now]. *)
Definition stamped (now : str) (j : json) : Prop :=
  match j with
  | SeasonDoc _ _ _ g _ _ => g = now
  | ManifestDoc _ ss => Forall (fun s => last_updated s = now) ss
  | Truncated => True
  end.

(** What holds of the loop state after any number of files, relative to
    the world [w0] in which the loop started. *)
Record run_inv (now : str) (w0 : world) (st : run_state) : Prop := {
  inv_disk :
    exists new,
      disk (rworld st) = new ++ disk w0
      /\ Forall (fun fj => fst fj <> MANIFEST_FILE /\ stamped now (snd fj)) new;
  inv_stamps : Forall (fun s => last_updated s = now) (seasons st);
  inv_clock : clock_reads (rworld st) = clock_reads w0
}.

(** The summaries a run ends its loop with. *)
Definition run_summaries (h : host) (files : list Path) (raw_mode : bool)
           (w : world) : list summary :=
  seasons (snd (snd (run_files h files raw_mode w))).

Unset Implicit Arguments.

(** Strings of ASCII digits. *)
Definition all_digits (ds : str) : Prop := Forall (fun c => is_digit c = true) ds.

(** The canonical form of a finite float: no trailing zero in the
    significand, and exponent 0 for zero. *)
Definition canonical (m : N) (e : Z) : Prop :=
  (m = 0%N /\ e = 0%Z) \/ (m <> 0%N /\ (m mod 10 <> 0)%N).

(** [s] does not begin with a character satisfying [p]. *)
Definition stops_at (p : char -> bool) (s : str) : Prop :=
  match s with
  | c :: _ => p c = false
  | [] => True
  end.



(** Strings without whitespace. *)
Definition no_space (s : str) : Prop := Forall (fun c => is_space c = false) s.



(** The cleaning of lines 92 to 98, on strings. *)
Definition clean_str (s : str) : str :=
  replace 45%N [] (replace EN_DASH [] (replace 44%N (py ".")
    (replace 37%N [] (strip s)))).

(** NaN, plus infinity, or a non-negative canonical decimal with at most
    two decimals. *)
Inductive rounded : float -> Prop :=
| rounded_nan : rounded FNaN
| rounded_inf : rounded (FInf false)
| rounded_fin m e : canonical m e -> (-2 <= e)%Z -> rounded (FFin false m e).

(** NaN, plus infinity, or a non-negative canonical decimal. *)
Inductive unsigned : float -> Prop :=
| unsigned_nan : unsigned FNaN
| unsigned_inf : unsigned (FInf false)
| unsigned_fin m e : canonical m e -> unsigned (FFin false m e).

(** A number read without a sign. *)
Definition unsigned_num (n : num) : Prop :=
  match n with
  | NInt z => (0 <= z)%Z
  | NFloat f => unsigned f
  end.

(** Cells holding a non-negative integer, a rounded float, an integer. *)
Definition nat_cell (x : cell) : Prop := exists z, x = CInt z /\ (0 <= z)%Z.

Definition rounded_cell (x : cell) : Prop := exists f, x = CFloat f /\ rounded f.

(** A float column after normalization: non-negative integers throughout,
    or rounded floats throughout. *)
Definition float_col_ok (col : column) : Prop :=
  Forall nat_cell col \/ Forall rounded_cell col.

(** What lines 104 and 105 make of one cell. *)
Definition int_of_cell (x : cell) : result cell :=
  match parse_cell x with
  | NInt z => Ok (CInt z)
  | NFloat f => astype_int (fillna0 (CFloat f))
  end.


(** One column under a treatment [f] reserved to the names in [set]. *)
Definition col_step (set : list str) (f : column -> result column)
           (nc : str * column) : result (str * column) :=
  if str_in (fst nc) set
  then col <- f (snd nc) ;; Ok (fst nc, col)
  else Ok nc.

(** The body shared by the three loops of [normalize_df]. *)
Definition loop_body (set : list str) (f : column -> result column)
           (c : str) (df : DataFrame) : result DataFrame :=
  if str_in c set
  then col <- f (getcol df c) ;; Ok (setcol df c col)
  else Ok df.

(** A treatment that cannot fail. *)
Definition pure_step (set : list str) (g : column -> column)
           (nc : str * column) : str * column :=
  if str_in (fst nc) set then (fst nc, g (snd nc)) else nc.

(** The three treatments of one column, in the order of the loops. *)
Definition norm_step (nc : str * column) : result (str * column) :=
  col_step INT_COLS int_column
    (pure_step FLOAT_COLS float_column (pure_step STR_COLS trim_column nc)).

(** The cell of column [c] in row [i]. *)
Definition cell_at (df : DataFrame) (c : str) (i : nat) : option cell :=
  nth_error (getcol df c) i.



(** A non-negative number: an integer, a finite float or infinity with
    the sign bit clear. *)
Definition nonneg_number (y : cell) : Prop :=
  match y with
  | CInt z => (0 <= z)%Z
  | CFloat (FFin neg _ _) => neg = false
  | CFloat (FInf neg) => neg = false
  | _ => False
  end.

(** No cell of an integer column reads as an infinity. *)
Definition int_columns_finite (df : DataFrame) : Prop :=
  forall nc x neg,
    In nc df -> str_in (fst nc) INT_COLS = true -> In x (snd nc) ->
    parse_cell x <> NFloat (FInf neg).

(** The cells of the specification's examples, and what the normalizer
    makes of them. *)
Definition spec_examples : DataFrame :=
  [(py "Aff%", [CStr (py "3,50%"); CStr (py "12-"); CStr (py "n/a");
                CStr (py "-3,5")]);
   (py "T", [CStr (py "n/a"); NaN; CStr (py "7"); CInt 4]);
   (py "Nome", [CStr (py " Rossi "); CStr (py "Bianchi"); NaN; CInt 10])].

Definition spec_examples_normalized : DataFrame :=
  [(py "Aff%", [CFloat (FFin false 35 (-1)); CFloat (FFin false 12 0); NaN;
                CFloat (FFin false 35 (-1))]);
   (py "T", [CInt 0; CInt 0; CInt 7; CInt 4]);
   (py "Nome", [CStr (py "Rossi"); CStr (py "Bianchi"); CStr (py "nan");
                CStr (py "10")])].

(** The digits of ASCII, an instance of the decimal-digit table. *)
Definition ascii_decimal : char -> bool := is_digit.

(** A table with the 34 required columns and one row, every cell [x]. *)
Definition one_row (x : cell) : DataFrame :=
  map (fun c => (c, [x])) REQUIRED_COLUMNS.

(** A host with three spreadsheets, the second with [inf] in every cell,
    in which every write succeeds. *)
Definition three_files_host : host :=
  {| uni_decimal := ascii_decimal;
     lower := map ascii_lower;
     is_file := fun _ => true;
     pd_read_excel := fun p _ _ =>
       if str_eqb (name p) (py "b_2021_2022.xlsx")
       then Some (one_row (CStr (py "inf")))
       else Some (one_row (CInt 1));
     mkdir_fails := false;
     utc_clock := fun _ => py "2024-01-01T00:00:00";
     write_ends := fun _ => WriteOk |}.


Definition empty_world : world :=
  {| clock_reads := 0; disk := []; writes := 0; logged := [] |}.

(** ** The vocabulary of the further properties *)

(** What the run wrote: the part of the journal on top of the directory
    it started with. *)
Definition written (h : host) (files : list Path) (raw_mode : bool)
           (w : world) : list (str * json) :=
  let w' := snd (_process_files h files raw_mode w) in
  firstn (length (disk w') - length (disk w)) (disk w').

(** The summary that line 205 builds next to a season document. *)
Definition doc_summary (fj : str * json) : list summary :=
  match snd fj with
  | SeasonDoc _ l k g _ players =>
      [{| label := l; key := k; file := fst fj;
          n_players := length players; last_updated := g |}]
  | _ => []
  end.

(** The summaries of the season documents of a journal, oldest first. *)
Definition ledger (new : list (str * json)) : list summary :=
  flat_map doc_summary (rev new).

(** The four ways in which the body of the loop at line 154 ends for one
    file: nothing written (the file was skipped, or the write raised
    before the file was opened); [normalize_df] raised; the write raised
    and left a truncated file; the season document was written and its
    summary appended. *)
Inductive file_step (h : host) (raw_mode : bool) (now_iso : str) (fp : Path)
          (st : run_state) : outcome -> run_state -> Prop :=
| step_skip st' :
    seasons st' = seasons st ->
    disk (rworld st') = disk (rworld st) ->
    file_step h raw_mode now_iso fp st Returned st'
| step_raise df st' :
    raw_mode = false ->
    read_excel_with_engine h fp SHEET_NAME = Some df ->
    ensure_required_columns df = [] ->
    normalize_df df = Raise IntCastingNaNError ->
    seasons st' = seasons st ->
    disk (rworld st') = disk (rworld st) ->
    file_step h raw_mode now_iso fp st (Raised IntCastingNaNError) st'
| step_truncated lbl k st' :
    extract_season_from_filename (uni_decimal h) (stem fp) = Ok (lbl, k) ->
    (exists n, write_ends h n = WriteFailsLate) ->
    seasons st' = seasons st ->
    disk (rworld st') = (k ++ py ".json", Truncated) :: disk (rworld st) ->
    file_step h raw_mode now_iso fp st Returned st'
| step_written lbl k df df' st' :
    extract_season_from_filename (uni_decimal h) (stem fp) = Ok (lbl, k) ->
    read_excel_with_engine h fp SHEET_NAME = Some df ->
    ensure_required_columns df = [] ->
    (if raw_mode then df' = df else normalize_df df = Ok df') ->
    seasons st'
    = seasons st ++ [{| label := lbl; key := k; file := k ++ py ".json";
                        n_players := nrows df'; last_updated := now_iso |}] ->
    disk (rworld st')
    = (k ++ py ".json",
       SeasonDoc 1 lbl k now_iso (columns df') (to_dict_records df'))
      :: disk (rworld st) ->
    file_step h raw_mode now_iso fp st Returned st'.

(** What holds of every file a run writes in its loop: a season document
    has schema version 1, the name [<key>.json], the timestamp of the run,
    a label and a key over the same two years, all required columns among
    its columns, and player records keyed by exactly its columns; a
    truncated file has such a name too and stems from a write that raised
    late. *)
Definition season_doc_ok (h : host) (now : str) (fj : str * json) : Prop :=
  match snd fj with
  | SeasonDoc v l k g cols players =>
      v = 1%Z /\ fst fj = k ++ py ".json" /\ g = now
      /\ (exists y1 y2, is_year (uni_decimal h) y1 /\ is_year (uni_decimal h) y2
                        /\ l = season_label y1 y2 /\ k = season_key y1 y2)
      /\ (forall c, In c REQUIRED_COLUMNS -> In c cols)
      /\ Forall (fun r => map fst r = cols) players
  | ManifestDoc _ _ => False
  | Truncated =>
      (exists n, write_ends h n = WriteFailsLate)
      /\ exists k, fst fj = k ++ py ".json"
  end.

(** The loop keeps its summaries in step with the documents it wrote. *)
Definition ledger_inv (h : host) (now : str) (w0 : world) (st : run_state)
  : Prop :=
  exists new,
    disk (rworld st) = new ++ disk w0
    /\ ledger new = seasons st
    /\ Forall (season_doc_ok h now) new.

(** What a run puts on top of the files of its loop: nothing, the
    manifest, or a truncated manifest. *)
Inductive manifest_top (h : host) (st : run_state)
  : list (str * json) -> Prop :=
| top_none : manifest_top h st []
| top_manifest :
    seasons st <> [] ->
    manifest_top h st
      [(MANIFEST_FILE, ManifestDoc 1 (merge_manifest (seasons st)))]
| top_truncated :
    (exists n, write_ends h n = WriteFailsLate) ->
    manifest_top h st [(MANIFEST_FILE, Truncated)].

(** What holds of every file a run writes: a season document is as
    [season_doc_ok] says; a manifest is named [seasons.json], has schema
    version 1 and lists the merge of the summaries [ss] of the run, of
    which there is one at least; a truncated file stems from a write that
    raised late. *)
Definition valid_document (h : host) (now : str) (ss : list summary)
           (fj : str * json) : Prop :=
  match snd fj with
  | SeasonDoc _ _ _ _ _ _ => season_doc_ok h now fj
  | ManifestDoc v l =>
      fst fj = MANIFEST_FILE /\ v = 1%Z /\ l = merge_manifest ss /\ ss <> []
  | Truncated => exists n, write_ends h n = WriteFailsLate
  end.

(** The first and the third of the three files. *)
Definition two_files : list Path :=
  [{| parent := py "in"; name := py "a_2020_2021.xlsx" |};
   {| parent := py "in"; name := py "c_2022_2023.xlsx" |}].


(** The typed columns do not take part in this one's name. *)
Definition untyped (c : str) : Prop :=
  str_in c STR_COLS = false /\ str_in c FLOAT_COLS = false
  /\ str_in c INT_COLS = false.

(** A goals column with fractions, and a column the program has no type
    for. *)
Definition goals_example : DataFrame :=
  [(py "GF", [CStr (py "3.9"); CStr (py "-3.9"); CStr (py "7")]);
   (py "Note", [CStr (py " x "); NaN; CInt 1])].

(** The test of line 137. *)
Definition is_candidate (h : host) (p : Path) : bool :=
  is_file h p && str_in (lower h (suffix p)) [py ".xls"; py ".xlsx"].

(** The files of [l] whose key is [k], in the order of [l]. *)
Definition with_name A (kf : A -> str) (k : str) (l : list A) : list A :=
  filter (fun x => str_eqb (kf x) k) l.

(** Two spreadsheets of the same name in two folders, and a text file. *)
Definition same_name_files : list Path :=
  [{| parent := py "new"; name := py "2021_2022.XLSX" |};
   {| parent := py "in"; name := py "notes.txt" |};
   {| parent := py "old"; name := py "2021_2022.xlsx" |};
   {| parent := py "in"; name := py "2020_2021.xls" |}].

(** Names joined by the delimiter [;] of the file browser (line 245). *)
Fixpoint join_names (ns : list str) : str :=
  match ns with
  | [] => []
  | [n] => n
  | n :: ns' => n ++ 59%N :: join_names ns'
  end.

(** [s] begins with a character that is neither whitespace nor a quote. *)
Definition firm_start (s : str) : Prop :=
  match s with
  | c :: _ => is_space c = false /\ c <> QUOTE
  | [] => False
  end.

(** A name that the input field can carry: without separators, and
    beginning and ending with a character that is neither whitespace nor
    a quote. *)
Definition plain_name (n : str) : Prop :=
  Forall (fun c => is_list_sep c = false) n
  /\ firm_start n /\ firm_start (rev n).

(** The names that the lines [ls] of a log announce as being read, and
    the files with their numbers of rows that they report as generated;
    the log has its newest line first, the results their oldest. *)
Definition readings (ls : list log_line) : list str :=
  flat_map (fun l => match l with LogReading n => [n] | _ => [] end) (rev ls).

Definition generated (ls : list log_line) : list (str * nat) :=
  flat_map (fun l => match l with LogOk f n => [(f, n)] | _ => [] end)
           (rev ls).

(** The last line of a run that returns. *)
Definition closing_line (l : log_line) : bool :=
  match l with
  | LogNoFiles | LogManifestOk _ | LogManifestError | LogNothing => true
  | _ => false
  end.

(** The season document [fj] was made from one of the files [cands]: its
    label and key are those of the file's stem, its columns those of the
    table read from the file, and its players the records of that table,
    as read in raw mode and as normalized otherwise. *)
Definition from_candidate (h : host) (raw_mode : bool) (cands : list Path)
           (fj : str * json) : Prop :=
  match snd fj with
  | SeasonDoc _ l k _ cols players =>
      exists fp df df',
        In fp cands
        /\ extract_season_from_filename (uni_decimal h) (stem fp) = Ok (l, k)
        /\ read_excel_with_engine h fp SHEET_NAME = Some df
        /\ (if raw_mode then df' = df else normalize_df df = Ok df')
        /\ cols = columns df
        /\ players = to_dict_records df'
  | _ => True
  end.

Set Implicit Arguments.

(* ================================================================== *)
(** * Part II: properties *)
(* ================================================================== *)

Section SeasonExtractorFacts.

Variable is_decimal : char -> bool.

Local Abbreviation is_year := (is_year is_decimal).
Local Abbreviation season_at := (season_at is_decimal).
Local Abbreviation first_season_at := (first_season_at is_decimal).
Local Abbreviation stops := (stops is_decimal).

Lemma star_sound R (p : cclass) (k : str -> option R) (s : str) (r : R) :
  star is_decimal p k s = Some r ->
  exists ws rest, s = ws ++ rest
    /\ Forall (fun c => cc_match is_decimal p c = true) ws
    /\ k rest = Some r.
Proof.
  induction s as [|c s IH]; simpl; intro H.
  - exists [], []. auto.
  - destruct (cc_match is_decimal p c) eqn:Hc.
    + destruct (star is_decimal p k s) eqn:Hs.
      * injection H as ->. destruct (IH eq_refl) as (ws & rest & -> & Hws & Hk).
        exists (c :: ws), rest. auto.
      * exists [], (c :: s). auto.
    + exists [], (c :: s). auto.
Qed.

Lemma star_greedy R (p : cclass) (k : str -> option R) (ws rest : str) (r : R) :
  Forall (fun c => cc_match is_decimal p c = true) ws ->
  stops p rest ->
  k rest = Some r ->
  star is_decimal p k (ws ++ rest) = Some r.
Proof.
  intros Hws Hstop Hk. induction Hws as [|c ws Hc _ IH]; simpl.
  - destruct rest as [|c rest]; simpl in *; auto. now rewrite Hstop.
  - now rewrite Hc, IH.
Qed.

Lemma year_match (s : str) (caps : captures) k (m : captures) :
  rmatch is_decimal YEAR s caps k = Some m <->
  exists d1 d2 s', s = 50%N :: 48%N :: d1 :: d2 :: s'
    /\ is_decimal d1 = true /\ is_decimal d2 = true
    /\ k s' caps = Some m.
Proof.
  unfold YEAR; simpl. split.
  - destruct s as [|a [|b [|d1 [|d2 s']]]]; simpl;
      repeat match goal with
             | |- (if ?c then _ else _) = _ -> _ => destruct c eqn:?; try discriminate
             | |- None = _ -> _ => discriminate
             end.
    intro Hk. unfold char_eqb in *.
    apply N.eqb_eq in Heqb0, Heqb1. subst.
    exists d1, d2, s'. auto.
  - intros (d1 & d2 & s' & -> & H1 & H2 & Hk). simpl.
    now rewrite H1, H2.
Qed.

Lemma firstn_len4 A (a b c d : A) (l : list A) :
  firstn (length (a :: b :: c :: d :: l) - length l) (a :: b :: c :: d :: l)
  = [a; b; c; d].
Proof.
  simpl length.
  replace (S (S (S (S (length l)))) - length l) with 4 by lia.
  reflexivity.
Qed.

Lemma group_year (n : nat) (s : str) (caps : captures) k (m : captures) :
  rmatch is_decimal (RGroup n YEAR) s caps k = Some m <->
  exists y s', s = y ++ s' /\ is_year y /\ k s' ((n, y) :: caps) = Some m.
Proof.
  change (rmatch is_decimal (RGroup n YEAR) s caps k)
    with (rmatch is_decimal YEAR s caps
            (fun s' caps' => k s' ((n, firstn (length s - length s') s) :: caps'))).
  rewrite year_match. split.
  - intros (d1 & d2 & s' & -> & H1 & H2 & Hk).
    exists [50; 48; d1; d2]%N, s'. split; [reflexivity|]. split.
    + exists d1, d2. auto.
    + now rewrite firstn_len4 in Hk.
  - intros (y & s' & -> & (d1 & d2 & -> & H1 & H2) & Hk).
    exists d1, d2, s'. repeat split; auto.
    cbn [app]. now rewrite firstn_len4.
Qed.

Lemma separator_not_space (c : char) : In c SEPARATORS -> is_space c = false.
Proof.
  unfold SEPARATORS; simpl. intros [<-|[<-|[<-|[]]]]; reflexivity.
Qed.

Lemma separator_match (c : char) :
  existsb (char_eqb c) SEPARATORS = true <-> In c SEPARATORS.
Proof.
  rewrite existsb_exists. unfold char_eqb. split.
  - intros (x & Hin & Heq). apply N.eqb_eq in Heq. now subst.
  - intro H. exists c. split; [assumption | apply N.eqb_refl].
Qed.

Lemma rmatch_seq r1 r2 s caps k :
  rmatch is_decimal (RSeq r1 r2) s caps k
  = rmatch is_decimal r1 s caps (fun s' caps' => rmatch is_decimal r2 s' caps' k).
Proof. reflexivity. Qed.

Lemma rmatch_star p s caps k :
  rmatch is_decimal (RStar p) s caps k
  = star is_decimal p (fun s' => k s' caps) s.
Proof. reflexivity. Qed.

Lemma rmatch_sym p s caps k :
  rmatch is_decimal (RSym p) s caps k
  = match s with
    | c :: s' => if cc_match is_decimal p c then k s' caps else None
    | [] => None
    end.
Proof. reflexivity. Qed.

(** The pattern matches at the start of [s] exactly when [s] begins with
    a season, and then the groups are the two years. *)
Lemma season_re_match (s : str) (m : captures) :
  rmatch is_decimal SEASON_RE s [] k_done = Some m <->
  exists y1 y2, season_at s 0 y1 y2 /\ m = [(2, y2); (1, y1)].
Proof.
  unfold SEASON_RE. rewrite rmatch_seq, group_year. split.
  - intros (y1 & s1 & -> & Hy1 & H).
    rewrite rmatch_seq, rmatch_star in H. apply star_sound in H.
    destruct H as (ws1 & r1 & -> & Hws1 & H).
    rewrite rmatch_seq, rmatch_sym in H.
    destruct r1 as [|c r1]; [discriminate|].
    destruct (cc_match is_decimal (COneOf SEPARATORS) c) eqn:Hc; [|discriminate].
    apply separator_match in Hc.
    rewrite rmatch_seq, rmatch_star in H.
    apply star_sound in H. destruct H as (ws2 & r2 & -> & Hws2 & H).
    apply group_year in H.
    destruct H as (y2 & post & -> & Hy2 & H).
    injection H as <-.
    exists y1, y2. split; [|reflexivity].
    exists [], ws1, c, ws2, post. repeat split; auto.
  - intros (y1 & y2 & (pre & ws1 & c & ws2 & post & -> & Hpre & Hy1 & Hy2
                       & Hws1 & Hws2 & Hc) & ->).
    destruct pre; [|discriminate]. simpl app.
    exists y1, (ws1 ++ c :: ws2 ++ y2 ++ post). repeat split; auto.
    rewrite rmatch_seq, rmatch_star. apply star_greedy; auto.
    { simpl. now apply separator_not_space. }
    rewrite rmatch_seq, rmatch_sym.
    apply separator_match in Hc.
    change (cc_match is_decimal (COneOf SEPARATORS) c)
      with (existsb (char_eqb c) SEPARATORS).
    rewrite Hc.
    rewrite rmatch_seq, rmatch_star. apply star_greedy; auto.
    { destruct Hy2 as (d1 & d2 & -> & _). reflexivity. }
    apply group_year. exists y2, post. auto.
Qed.

Lemma re_search_eq (r : regex) (s : str) :
  re_search is_decimal r s
  = match rmatch is_decimal r s [] k_done with
    | Some m => Some m
    | None => match s with [] => None | _ :: s' => re_search is_decimal r s' end
    end.
Proof. destruct s; reflexivity. Qed.

Lemma season_at_cons (a : char) (s : str) (i : nat) (y1 y2 : str) :
  season_at (a :: s) (S i) y1 y2 <-> season_at s i y1 y2.
Proof.
  split.
  - intros (pre & ws1 & c & ws2 & post & E & Hl & H).
    destruct pre as [|p pre]; [discriminate|].
    injection E as -> ->. injection Hl as Hl.
    exists pre, ws1, c, ws2, post. auto.
  - intros (pre & ws1 & c & ws2 & post & -> & Hl & H).
    exists (a :: pre), ws1, c, ws2, post. simpl. auto.
Qed.

Lemma season_at_nil (i : nat) (y1 y2 : str) : ~ season_at [] i y1 y2.
Proof.
  intros (pre & ws1 & c & ws2 & post & E & _ & (d1 & d2 & -> & _) & _).
  destruct pre; discriminate.
Qed.

Lemma season_at_0 (s : str) (y1 y2 : str) :
  season_at s 0 y1 y2 ->
  rmatch is_decimal SEASON_RE s [] k_done = Some [(2, y2); (1, y1)].
Proof. intro H. apply season_re_match. eauto. Qed.

(** At one position the pattern has at most one match. *)
Lemma season_at_det (s : str) (i : nat) (y1 y2 z1 z2 : str) :
  season_at s i y1 y2 -> season_at s i z1 z2 -> y1 = z1 /\ y2 = z2.
Proof.
  revert i. induction s as [|a s IH]; intros i Hy Hz.
  - now apply season_at_nil in Hy.
  - destruct i as [|i].
    + apply season_at_0 in Hy, Hz. rewrite Hy in Hz.
      injection Hz as -> ->. auto.
    + apply season_at_cons in Hy, Hz. eauto.
Qed.

Lemma re_search_spec (s : str) :
  match re_search is_decimal SEASON_RE s with
  | Some m => exists i y1 y2, first_season_at s i y1 y2 /\ m = [(2, y2); (1, y1)]
  | None => forall i a b, ~ season_at s i a b
  end.
Proof.
  induction s as [|c s IH]; rewrite re_search_eq.
  - destruct (rmatch is_decimal SEASON_RE [] [] k_done) eqn:E.
    + apply season_re_match in E. destruct E as (y1 & y2 & H & _).
      now apply season_at_nil in H.
    + intros i a b. apply season_at_nil.
  - destruct (rmatch is_decimal SEASON_RE (c :: s) [] k_done) eqn:E.
    + apply season_re_match in E. destruct E as (y1 & y2 & H & ->).
      exists 0, y1, y2. split; [|reflexivity]. split; [assumption|].
      intros j a b Hj. lia.
    + destruct (re_search is_decimal SEASON_RE s).
      * destruct IH as (i & y1 & y2 & (H & Hfirst) & ->).
        exists (S i), y1, y2. split; [|reflexivity]. split.
        { now apply season_at_cons. }
        intros [|j] a b Hj Hs.
        { apply season_at_0 in Hs. congruence. }
        apply season_at_cons in Hs. apply (Hfirst j a b); [lia | assumption].
      * intros [|i] a b Hs.
        { apply season_at_0 in Hs. congruence. }
        apply season_at_cons in Hs. now apply (IH i a b).
Qed.

Lemma first_season_at_det (s : str) (i j : nat) (y1 y2 z1 z2 : str) :
  first_season_at s i y1 y2 -> first_season_at s j z1 z2 ->
  i = j /\ y1 = z1 /\ y2 = z2.
Proof.
  intros (Hy & Hfy) (Hz & Hfz).
  assert (i = j) as ->.
  { destruct (Nat.lt_trichotomy i j) as [H|[H|H]]; [|assumption|].
    - now apply Hfz in Hy.
    - now apply Hfy in Hz. }
  split; [reflexivity|]. eapply season_at_det; eassumption.
Qed.

(** C2. Whenever the stem holds two years [20dd] separated by one of
    [_], [-], [/] with optional whitespace around the separator, and this
    is the first such place in the stem, the extractor returns the label
    [y1/y2] and the key [y1_y2] built from those same two substrings.
    Nothing relates the two years to one another. *)
Theorem extract_season_first_match (s : str) (i : nat) (y1 y2 : str) :
  season_at s i y1 y2 ->
  (forall j a b, j < i -> ~ season_at s j a b) ->
  extract_season_from_filename is_decimal s
  = Ok (season_label y1 y2, season_key y1 y2).
Proof.
  intros Hs Hfirst. unfold extract_season_from_filename.
  pose proof (re_search_spec s) as H.
  destruct (re_search is_decimal SEASON_RE s) as [m|].
  - destruct H as (j & z1 & z2 & Hz & ->).
    destruct (first_season_at_det (conj Hs Hfirst) Hz) as (_ & -> & ->).
    reflexivity.
  - now apply H in Hs.
Qed.

(** C7. The extractor raises its [ValueError] (the pattern-not-found
    condition) exactly when no position of the stem holds a season, and
    returns a pair exactly when some position does; the stem
    [report_finale] is of the first kind. *)
Theorem extract_season_fails_iff_no_match :
  (forall s : str,
     (extract_season_from_filename is_decimal s = Raise ValueError_season
      <-> forall i y1 y2, ~ season_at s i y1 y2)
     /\ ((exists p, extract_season_from_filename is_decimal s = Ok p)
         <-> exists i y1 y2, season_at s i y1 y2))
  /\ extract_season_from_filename is_decimal (py "report_finale")
     = Raise ValueError_season.
Proof.
  split; [|reflexivity].
  intro s. unfold extract_season_from_filename.
  pose proof (re_search_spec s) as H.
  destruct (re_search is_decimal SEASON_RE s) as [m|].
  - destruct H as (i & y1 & y2 & (Hs & _) & ->). split; split.
    + discriminate.
    + intro Hno. now apply Hno in Hs.
    + eauto.
    + eauto.
  - split; split.
    + intros _. exact H.
    + reflexivity.
    + intros (p & Hp). discriminate.
    + intros (i & y1 & y2 & Hs). now apply H in Hs.
Qed.

(** Whatever the extractor returns is a label and a key over the same
    two years. *)
Lemma extract_season_shape (s lbl k : str) :
  extract_season_from_filename is_decimal s = Ok (lbl, k) ->
  exists y1 y2, is_year y1 /\ is_year y2
                /\ lbl = season_label y1 y2 /\ k = season_key y1 y2.
Proof.
  unfold extract_season_from_filename.
  pose proof (re_search_spec s) as H.
  destruct (re_search is_decimal SEASON_RE s) as [m|]; [|discriminate].
  destruct H as (i & y1 & y2 & (Hs & _) & ->).
  intros [= <- <-]. exists y1, y2.
  destruct Hs as (pre & ws1 & c & ws2 & post & _ & _ & Hy1 & Hy2 & _).
  auto.
Qed.

End SeasonExtractorFacts.

(** ** Strings *)

Lemma str_eqb_eq (a b : str) : str_eqb a b = true <-> a = b.
Proof.
  revert b. induction a as [|x a IH]; intros [|y b]; simpl; try easy.
  unfold char_eqb. rewrite andb_true_iff, N.eqb_eq, IH.
  split; [intros [-> ->] | intros [= -> ->]]; auto.
Qed.

Lemma str_eqb_refl (a : str) : str_eqb a a = true.
Proof. now apply str_eqb_eq. Qed.

Lemma str_eqb_neq (a b : str) : str_eqb a b = false <-> a <> b.
Proof.
  rewrite <- str_eqb_eq. destruct (str_eqb a b); split; congruence.
Qed.

Lemma str_in_In (x : str) (xs : list str) : str_in x xs = true <-> In x xs.
Proof.
  unfold str_in. rewrite existsb_exists. split.
  - intros (y & Hy & E). apply str_eqb_eq in E. now subst.
  - intro H. exists x. split; [assumption | apply str_eqb_refl].
Qed.

Lemma str_in_not_In (x : str) (xs : list str) :
  str_in x xs = false <-> ~ In x xs.
Proof.
  rewrite <- str_in_In. destruct (str_in x xs); split; congruence.
Qed.

Lemma str_ltb_irrefl (a : str) : str_ltb a a = false.
Proof.
  induction a as [|x a IH]; simpl; [reflexivity|].
  now rewrite N.ltb_irrefl, N.eqb_refl, IH.
Qed.

Lemma str_ltb_trans (a b c : str) :
  str_ltb a b = true -> str_ltb b c = true -> str_ltb a c = true.
Proof.
  revert b c. induction a as [|x a IH]; intros [|y b] [|z c]; simpl; try easy.
  rewrite !orb_true_iff, !andb_true_iff, !N.ltb_lt, !N.eqb_eq.
  intros [H1|[-> H1]] [H2|[-> H2]]; try (left; lia).
  right. split; [reflexivity|]. eapply IH; eassumption.
Qed.

Lemma str_ltb_total (a b : str) :
  str_ltb a b = true \/ a = b \/ str_ltb b a = true.
Proof.
  revert b. induction a as [|x a IH]; intros [|y b]; simpl; auto.
  rewrite !orb_true_iff, !andb_true_iff, !N.ltb_lt, !N.eqb_eq.
  destruct (N.lt_trichotomy x y) as [H|[->|H]]; auto.
  destruct (IH b) as [H|[->|H]]; auto.
Qed.

Lemma str_leb_total (a b : str) : str_leb a b = true \/ str_leb b a = true.
Proof.
  unfold str_leb.
  destruct (str_ltb_total a b) as [H|[->|H]].
  - left. destruct (str_ltb b a) eqn:E; [|reflexivity].
    pose proof (str_ltb_trans _ _ _ H E) as F.
    now rewrite str_ltb_irrefl in F.
  - left. now rewrite str_ltb_irrefl.
  - right. destruct (str_ltb a b) eqn:E; [|reflexivity].
    pose proof (str_ltb_trans _ _ _ H E) as F.
    now rewrite str_ltb_irrefl in F.
Qed.

Lemma str_leb_lt (a b : str) :
  str_leb a b = true -> a <> b -> str_ltb a b = true.
Proof.
  unfold str_leb. intros H Hne.
  destruct (str_ltb_total a b) as [E|[->|E]]; [assumption|easy|].
  now rewrite E in H.
Qed.

Lemma str_leb_trans (a b c : str) :
  str_leb a b = true -> str_leb b c = true -> str_leb a c = true.
Proof.
  unfold str_leb. intros H1 H2.
  destruct (str_ltb c a) eqn:E; [|reflexivity].
  destruct (str_ltb_total a b) as [F|[->|F]].
  - pose proof (str_ltb_trans _ _ _ E F) as G. now rewrite G in H2.
  - now rewrite E in H2.
  - now rewrite F in H1.
Qed.

(** ** Schema validation *)

Lemma filter_subseq A (f : A -> bool) (l : list A) : subseq (filter f l) l.
Proof.
  induction l as [|x l IH]; simpl; [constructor|].
  destruct (f x); now constructor.
Qed.

Lemma required_columns_nodup : NoDup REQUIRED_COLUMNS.
Proof.
  assert (H : forall l : list str,
             (fix nd (l : list str) : bool :=
                match l with
                | [] => true
                | x :: l' => negb (str_in x l') && nd l'
                end) l = true -> NoDup l).
  { induction l as [|x l IH]; [constructor|].
    rewrite andb_true_iff, negb_true_iff, str_in_not_In.
    intros [H1 H2]. constructor; auto. }
  apply H. vm_compute. reflexivity.
Qed.

(** C3. Validation is a function of the table's column names alone and
    returns a value, leaving the table as it was: the names it returns are
    exactly the required names that the table lacks, each once, in the
    order of the canonical list of 34 names; the answer is the same for
    two tables that hold the same required columns, whatever else they
    hold; it is empty exactly when no required column is absent; and a
    table lacking [COD] and [ID] gives [COD; ID]. *)
Theorem ensure_required_columns_spec :
  length REQUIRED_COLUMNS = 34
  /\ (forall df : DataFrame,
        (forall c, In c (ensure_required_columns df)
                   <-> In c REQUIRED_COLUMNS /\ ~ In c (columns df))
        /\ subseq (ensure_required_columns df) REQUIRED_COLUMNS
        /\ NoDup (ensure_required_columns df)
        /\ (ensure_required_columns df = []
            <-> forall c, In c REQUIRED_COLUMNS -> In c (columns df)))
  /\ (forall df1 df2 : DataFrame,
        (forall c, In c REQUIRED_COLUMNS ->
                   (In c (columns df1) <-> In c (columns df2))) ->
        ensure_required_columns df1 = ensure_required_columns df2)
  /\ ensure_required_columns table_without_COD_ID = [py "COD"; py "ID"].
Proof.
  split; [reflexivity|]. split; [|split; [|reflexivity]].
  - intro df. unfold ensure_required_columns.
    assert (Hin : forall c,
               In c (filter (fun c => negb (str_in c (columns df)))
                            REQUIRED_COLUMNS)
               <-> In c REQUIRED_COLUMNS /\ ~ In c (columns df)).
    { intro c. now rewrite filter_In, negb_true_iff, str_in_not_In. }
    split; [exact Hin|]. split; [apply filter_subseq|].
    split; [apply NoDup_filter, required_columns_nodup|].
    split.
    + intros E c Hc.
      destruct (str_in c (columns df)) eqn:F; [now apply str_in_In|].
      apply str_in_not_In in F.
      assert (G : In c []).
      { rewrite <- E. apply Hin. split; assumption. }
      destruct G.
    + intro Hall.
      destruct (filter _ REQUIRED_COLUMNS) as [|c l] eqn:E; [reflexivity|].
      assert (G : In c (c :: l)) by now left.
      apply Hin in G. destruct G as [G1 G2]. apply Hall in G1. contradiction.
  - intros df1 df2 H. unfold ensure_required_columns.
    apply filter_ext_in. intros c Hc. f_equal.
    specialize (H c Hc).
    destruct (str_in c (columns df1)) eqn:E1, (str_in c (columns df2)) eqn:E2;
      try reflexivity.
    + apply str_in_In in E1. apply str_in_not_In in E2. tauto.
    + apply str_in_In in E2. apply str_in_not_In in E1. tauto.
Qed.

(** ** Sorting *)

Section SortedFacts.

Variable A : Type.
Variable kf : A -> str.

Local Abbreviation key_le := (key_le kf).

Lemma insert_by_perm (x : A) (l : list A) :
  Permutation (insert_by kf x l) (x :: l).
Proof.
  induction l as [|y l IH]; simpl; [reflexivity|].
  destruct (str_leb (kf x) (kf y)); [reflexivity|].
  rewrite IH. apply perm_swap.
Qed.

Lemma sorted_perm (l : list A) : Permutation (sorted kf l) l.
Proof.
  induction l as [|x l IH]; simpl; [reflexivity|].
  rewrite insert_by_perm. now constructor.
Qed.

Lemma insert_by_sorted (x : A) (l : list A) :
  StronglySorted key_le l -> StronglySorted key_le (insert_by kf x l).
Proof.
  induction 1 as [|y l Hs IH Hall]; simpl.
  - constructor; constructor.
  - destruct (str_leb (kf x) (kf y)) eqn:E.
    + constructor; [now constructor|].
      constructor; [exact E|].
      eapply Forall_impl; [|exact Hall].
      intros z Hz. unfold key_le in *. eapply str_leb_trans; eassumption.
    + constructor; [exact IH|].
      eapply Permutation_Forall; [symmetry; apply insert_by_perm|].
      constructor; [|exact Hall].
      unfold key_le. destruct (str_leb_total (kf x) (kf y)); congruence.
Qed.

Lemma sorted_sorted (l : list A) : StronglySorted key_le (sorted kf l).
Proof.
  induction l as [|x l IH]; simpl; [constructor|].
  now apply insert_by_sorted.
Qed.

End SortedFacts.

Lemma sorted_strict (ks : list str) :
  NoDup ks ->
  StronglySorted (fun a b => str_ltb a b = true) (sorted (fun k => k) ks).
Proof.
  intro Hnd.
  assert (Hnd' : NoDup (sorted (fun k => k) ks)).
  { eapply Permutation_NoDup; [symmetry; apply sorted_perm | exact Hnd]. }
  pose proof (sorted_sorted (fun k : str => k) ks) as Hs.
  induction Hs as [|x l Hs IH Hall]; [constructor|].
  inversion Hnd' as [|? ? Hx Hl]; subst.
  constructor; [now apply IH|].
  rewrite Forall_forall in *. intros y Hy.
  apply str_leb_lt; [now apply Hall|].
  intros ->. contradiction.
Qed.

(** ** Dictionaries *)

Lemma dict_get_set V (d : dict V) (k k' : str) (v : V) :
  dict_get (dict_set d k v) k'
  = if str_eqb k k' then Some v else dict_get d k'.
Proof.
  induction d as [|[k0 v0] d IH]; simpl.
  - reflexivity.
  - destruct (str_eqb k0 k) eqn:E; simpl.
    + apply str_eqb_eq in E. subst k0.
      now destruct (str_eqb k k').
    + rewrite IH. destruct (str_eqb k0 k') eqn:F; [|reflexivity].
      apply str_eqb_eq in F. subst k0.
      destruct (str_eqb k k') eqn:G; [|reflexivity].
      apply str_eqb_eq in G. subst. now rewrite str_eqb_refl in E.
Qed.

Lemma dict_keys_set V (d : dict V) (k : str) (v : V) :
  dict_keys (dict_set d k v)
  = if str_in k (dict_keys d) then dict_keys d else dict_keys d ++ [k].
Proof.
  unfold dict_keys, str_in. induction d as [|[k0 v0] d IH]; simpl.
  - reflexivity.
  - destruct (str_eqb k0 k) eqn:E; simpl.
    + apply str_eqb_eq in E. subst. now rewrite str_eqb_refl.
    + assert (F : str_eqb k k0 = false).
      { apply str_eqb_neq. apply str_eqb_neq in E. congruence. }
      rewrite F, IH. simpl.
      now destruct (existsb (str_eqb k) (map fst d)).
Qed.

Lemma dict_keys_set_nodup V (d : dict V) (k : str) (v : V) :
  NoDup (dict_keys d) -> NoDup (dict_keys (dict_set d k v)).
Proof.
  intro H. rewrite dict_keys_set.
  destruct (str_in k (dict_keys d)) eqn:E; [assumption|].
  apply str_in_not_In in E.
  apply NoDup_app; [assumption | repeat constructor; easy |].
  intros x Hx [<-|[]]. contradiction.
Qed.

Lemma dict_keys_set_in V (d : dict V) (k k' : str) (v : V) :
  In k' (dict_keys (dict_set d k v)) <-> k' = k \/ In k' (dict_keys d).
Proof.
  rewrite dict_keys_set.
  destruct (str_in k (dict_keys d)) eqn:E.
  - apply str_in_In in E. split; [now right|]. now intros [->|H].
  - rewrite in_app_iff. simpl. intuition.
Qed.

(** ** The manifest *)

Lemma dedup_get (l : list summary) (d : dict summary) (k : str) :
  dict_get (dedup_from d l) k
  = match last_with k l with
    | Some s => Some s
    | None => dict_get d k
    end.
Proof.
  revert d. induction l as [|s l IH]; intro d; simpl; [reflexivity|].
  unfold dedup_from in *. rewrite IH.
  destruct (last_with k l); [reflexivity|].
  rewrite dict_get_set. now destruct (str_eqb (key s) k).
Qed.

Lemma dedup_keys_nodup (l : list summary) (d : dict summary) :
  NoDup (dict_keys d) -> NoDup (dict_keys (dedup_from d l)).
Proof.
  revert d. induction l as [|s l IH]; intros d H; simpl; [assumption|].
  apply IH. now apply dict_keys_set_nodup.
Qed.

Lemma dedup_keys_in (l : list summary) (d : dict summary) (k : str) :
  In k (dict_keys (dedup_from d l))
  <-> In k (map key l) \/ In k (dict_keys d).
Proof.
  revert d. induction l as [|s l IH]; intro d; simpl; [tauto|].
  unfold dedup_from in *. rewrite IH, dict_keys_set_in. intuition.
Qed.

Lemma last_with_key (k : str) (l : list summary) (s : summary) :
  last_with k l = Some s -> key s = k /\ In s l.
Proof.
  induction l as [|t l IH]; simpl; [discriminate|].
  destruct (last_with k l).
  - intros [= ->]. destruct (IH eq_refl). auto.
  - destruct (str_eqb (key t) k) eqn:E; [|discriminate].
    intros [= ->]. apply str_eqb_eq in E. auto.
Qed.

Lemma last_with_none (k : str) (l : list summary) :
  last_with k l = None <-> forall t, In t l -> key t <> k.
Proof.
  induction l as [|s l IH]; simpl.
  - split; [intros _ t [] | reflexivity].
  - destruct (last_with k l) eqn:E.
    + split; [discriminate|]. intro H.
      apply last_with_key in E. destruct E as [E1 E2].
      exfalso. apply (H s0); auto.
    + destruct (str_eqb (key s) k) eqn:F.
      * split; [discriminate|]. intro H. apply str_eqb_eq in F.
        exfalso. apply (H s); auto.
      * apply str_eqb_neq in F. split; [|reflexivity].
        intros _ t [<-|Ht]; [assumption|]. now apply IH.
Qed.

Lemma last_with_spec (l : list summary) (s : summary) :
  last_with (key s) l = Some s <-> last_of_its_key l s.
Proof.
  induction l as [|t l IH]; simpl.
  - split; [discriminate|]. intros (l1 & l2 & E & _). now destruct l1.
  - destruct (last_with (key s) l) eqn:E.
    + split.
      * intros [= ->]. destruct (proj1 IH eq_refl) as (l1 & l2 & -> & H).
        exists (t :: l1), l2. auto.
      * intros (l1 & l2 & F & H). destruct l1 as [|x l1].
        { injection F as -> <-. apply last_with_none in H. congruence. }
        injection F as -> ->. f_equal.
        assert (G : Some s0 = Some s); [|congruence].
        apply IH. now exists l1, l2.
    + destruct (str_eqb (key t) (key s)) eqn:F.
      * split.
        { intros [= ->]. exists [], l. split; [reflexivity|].
          now apply last_with_none. }
        intros (l1 & l2 & G & H). destruct l1 as [|x l1].
        { now injection G as ->. }
        injection G as -> ->.
        assert (G : None = Some s).
        { apply IH. now exists l1, l2. }
        discriminate.
      * split; [discriminate|].
        intros (l1 & l2 & G & H). destruct l1 as [|x l1].
        { injection G as -> <-. now rewrite str_eqb_refl in F. }
        injection G as -> ->.
        assert (G : None = Some s).
        { apply IH. now exists l1, l2. }
        discriminate.
Qed.

Lemma merge_manifest_in (l : list summary) (s : summary) :
  In s (merge_manifest l) <-> last_of_its_key l s.
Proof.
  rewrite <- last_with_spec. unfold merge_manifest.
  fold (dedup_from [] l). rewrite in_flat_map. split.
  - intros (k & Hk & Hs). rewrite dedup_get in Hs. simpl in Hs.
    destruct (last_with k l) as [t|] eqn:E; [|destruct Hs].
    destruct Hs as [<-|[]].
    destruct (last_with_key _ _ E) as [<- _]. exact E.
  - intro H. exists (key s). split.
    + eapply Permutation_in; [symmetry; apply sorted_perm|].
      apply dedup_keys_in. left. apply in_map.
      now apply last_with_key in H.
    + rewrite dedup_get, H. now left.
Qed.

Lemma merge_manifest_keys (l : list summary) :
  map key (merge_manifest l)
  = sorted (fun k => k) (dict_keys (dedup_from [] l)).
Proof.
  unfold merge_manifest. fold (dedup_from [] l).
  assert (H : forall k, In k (sorted (fun k => k) (dict_keys (dedup_from [] l)))
                        -> exists s, dict_get (dedup_from [] l) k = Some s
                                     /\ key s = k).
  { intros k Hk.
    eapply Permutation_in in Hk; [|apply sorted_perm].
    apply dedup_keys_in in Hk. destruct Hk as [Hk|[]].
    rewrite dedup_get.
    destruct (last_with k l) as [s|] eqn:E.
    - exists s. split; [reflexivity|]. now apply last_with_key in E.
    - rewrite last_with_none in E. apply in_map_iff in Hk.
      destruct Hk as (t & Ht & Hin). now apply E in Hin. }
  induction (sorted (fun k => k) (dict_keys (dedup_from [] l))) as [|k ks IH];
    simpl; [reflexivity|].
  destruct (H k (or_introl eq_refl)) as (s & -> & <-).
  simpl. f_equal. apply IH. intros k' Hk'. apply H. now right.
Qed.

Lemma StronglySorted_map A B (f : A -> B) (R : B -> B -> Prop) (l : list A) :
  StronglySorted R (map f l) -> StronglySorted (fun a b => R (f a) (f b)) l.
Proof.
  induction l as [|x l IH]; simpl; intro H; [constructor|].
  inversion H as [|? ? Hs Hall]; subst.
  constructor; [now apply IH|].
  now rewrite Forall_map in Hall.
Qed.

(** C5. The merged manifest depends on the list of summaries alone; its
    keys are strictly ascending, so no key occurs twice; its entries are
    exactly the summaries that are the last of their key in the list; and
    summaries with the keys 2022_2023, 2021_2022, 2021_2022 give two
    entries, 2021_2022 from the third summary and then 2022_2023. *)
Theorem merge_manifest_spec :
  (forall l : list summary,
     StronglySorted key_lt (merge_manifest l)
     /\ forall s, In s (merge_manifest l) <-> last_of_its_key l s)
  /\ forall a b c : summary,
       merge_manifest [with_key a (py "2022_2023"); with_key b (py "2021_2022");
                       with_key c (py "2021_2022")]
       = [with_key c (py "2021_2022"); with_key a (py "2022_2023")].
Proof.
  split; [|reflexivity].
  intro l. split; [|apply merge_manifest_in].
  apply StronglySorted_map with (f := key) (R := fun a b => str_ltb a b = true).
  rewrite merge_manifest_keys. apply sorted_strict.
  apply dedup_keys_nodup. constructor.
Qed.

(** ** The batch run *)

Lemma season_file_not_manifest (dt : char -> bool) (s lbl k : str) :
  extract_season_from_filename dt s = Ok (lbl, k) ->
  k ++ py ".json" <> MANIFEST_FILE.
Proof.
  intro H. apply extract_season_shape in H.
  destruct H as (y1 & y2 & (d1 & d2 & -> & _) & _ & _ & ->).
  discriminate.
Qed.

Lemma run_inv_log now w0 ss seen w l :
  run_inv now w0 {| seasons := ss; seen_seasons := seen; rworld := w |} ->
  forall seen',
  run_inv now w0 {| seasons := ss; seen_seasons := seen'; rworld := log w l |}.
Proof. intros [H1 H2 H3] seen'. constructor; assumption. Qed.

Lemma process_file_inv h raw now w0 fp st :
  run_inv now w0 st ->
  run_inv now w0 (snd (process_file h raw now fp st)).
Proof.
  intro Hinv. destruct st as [ss seen w]. unfold process_file.
  cbn [rworld seasons seen_seasons].
  assert (Hw : run_inv now w0
                 {| seasons := ss; seen_seasons := seen;
                    rworld := log w (LogReading (name fp)) |})
    by now apply run_inv_log with (seen := seen).
  set (w1 := log w (LogReading (name fp))) in *. clearbody w1. clear Hinv.
  destruct (extract_season_from_filename (uni_decimal h) (stem fp))
    as [[lbl k]|e] eqn:Hex; cbn [snd].
  2: { now apply run_inv_log with (seen := seen). }
  assert (Hw2 : run_inv now w0
                  {| seasons := ss; seen_seasons := seen;
                     rworld := if str_in k seen
                               then log w1 (LogDuplicate k) else w1 |}).
  { destruct (str_in k seen); [|assumption].
    now apply run_inv_log with (seen := seen). }
  set (w2 := if str_in k seen then log w1 (LogDuplicate k) else w1) in *.
  clearbody w2. clear Hw.
  destruct (read_excel_with_engine h fp SHEET_NAME) as [df|]; cbn [snd].
  2: { now apply run_inv_log with (seen := seen). }
  destruct (ensure_required_columns df) as [|c missing]; cbn [snd].
  2: { now apply run_inv_log with (seen := seen). }
  destruct (if raw then Ok df else normalize_df df) as [df'|e]; cbn [snd].
  2: { destruct Hw2 as [H1 H2 H3]. constructor; assumption. }
  assert (Hname : k ++ py ".json" <> MANIFEST_FILE)
    by (eapply season_file_not_manifest; eassumption).
  destruct Hw2 as [(new & H1 & H1') H2 H3].
  cbn [rworld seasons] in H1, H2, H3.
  unfold write_json. destruct (write_ends h (writes w2)); cbn [snd].
  - constructor; cbn [rworld seasons log disk clock_reads].
    + exists ((k ++ py ".json",
               SeasonDoc 1 lbl k now (columns df') (to_dict_records df'))
              :: new).
      split; [now rewrite H1|].
      constructor; [|assumption]. split; [assumption | reflexivity].
    + apply Forall_app. split; [assumption|]. now repeat constructor.
    + assumption.
  - constructor; cbn [rworld seasons log disk clock_reads]; eauto.
  - constructor; cbn [rworld seasons log disk clock_reads].
    + exists ((k ++ py ".json", Truncated) :: new).
      split; [now rewrite H1|].
      constructor; [|assumption]. split; [assumption | exact I].
    + assumption.
    + assumption.
Qed.

Lemma process_loop_inv h raw now w0 files st :
  run_inv now w0 st ->
  run_inv now w0 (snd (process_loop h raw now files st)).
Proof.
  revert st. induction files as [|fp files IH]; intros st Hinv; simpl.
  - assumption.
  - pose proof (process_file_inv h raw fp Hinv) as H.
    destruct (process_file h raw now fp st) as [[|e] st']; simpl in *.
    + now apply IH.
    + assumption.
Qed.

Lemma run_files_inv h files raw w :
  run_inv (utc_clock h (clock_reads w) ++ py "Z") (snd (utcnow h w))
          (snd (snd (run_files h files raw w))).
Proof.
  unfold run_files. cbn [utcnow snd].
  apply process_loop_inv. constructor; cbn.
  - exists []. auto.
  - constructor.
  - reflexivity.
Qed.

Lemma merge_manifest_incl (l : list summary) (s : summary) :
  In s (merge_manifest l) -> In s l.
Proof.
  intro H. apply merge_manifest_in in H.
  destruct H as (l1 & l2 & -> & _). apply in_elt.
Qed.

Lemma dict_get_app_notin V (new d : dict V) (k : str) :
  ~ In k (dict_keys new) -> dict_get (new ++ d) k = dict_get d k.
Proof.
  induction new as [|[k' v] new IH]; simpl; intro H; [reflexivity|].
  destruct (str_eqb k' k) eqn:E.
  - apply str_eqb_eq in E. subst. exfalso. apply H. now left.
  - apply IH. intro G. apply H. now right.
Qed.

Lemma not_manifest_names (now : str) (new : list (str * json)) :
  Forall (fun fj => fst fj <> MANIFEST_FILE /\ stamped now (snd fj)) new ->
  ~ In MANIFEST_FILE (map fst new).
Proof.
  intros H Hin. apply in_map_iff in Hin. destruct Hin as (fj & E & Hfj).
  rewrite Forall_forall in H. destruct (H fj Hfj) as [G _]. contradiction.
Qed.

(** C8. A run only adds to the journal of the output directory.  When no
    file passes the filter the run has no summary; when the run has no
    summary, whether for that reason or because every file was skipped,
    the manifest file is what it was before the run; and a manifest among
    the files written means that the run had a summary. *)
Theorem manifest_needs_a_summary
        (h : host) (files : list Path) (raw_mode : bool) (w : world) :
  let ss := run_summaries h files raw_mode w in
  let w' := snd (_process_files h files raw_mode w) in
  (candidate_files h files = [] -> ss = [])
  /\ (ss = [] -> dict_get (disk w') MANIFEST_FILE
                 = dict_get (disk w) MANIFEST_FILE)
  /\ exists new, disk w' = new ++ disk w
                 /\ (In MANIFEST_FILE (map fst new) -> ss <> []).
Proof.
  cbv zeta. unfold run_summaries.
  set (w' := snd (_process_files h files raw_mode w)).
  set (ss := seasons (snd (snd (run_files h files raw_mode w)))).
  assert (H3 : exists new, disk w' = new ++ disk w
                           /\ (In MANIFEST_FILE (map fst new) -> ss <> [])).
  { unfold w', ss, _process_files.
    pose proof (run_files_inv h files raw_mode w) as Hinv.
    destruct (mkdir_fails h).
    { exists []. split; [reflexivity|]. intros []. }
    destruct (candidate_files h files) as [|fp cands] eqn:Hc.
    { exists []. split; [reflexivity|]. intros []. }
    destruct (snd (run_files h files raw_mode w)) as [[|e] st];
      cbn [snd] in *; destruct Hinv as [(new & Hd & Hnew) _ _];
      cbn [utcnow snd disk] in Hd;
      pose proof (@not_manifest_names _ _ Hnew) as Hnot.
    - unfold update_manifest.
      destruct (seasons st) as [|s rest] eqn:Hs.
      + exists new. cbn [log disk]. split; [assumption | contradiction].
      + unfold write_json. destruct (write_ends h (writes (rworld st)));
          cbn [log disk]; eexists; (split; [rewrite Hd; try reflexivity;
            rewrite app_comm_cons; reflexivity | discriminate]).
    - exists new. split; [assumption | contradiction]. }
  split; [|split; [|exact H3]].
  - intro E. unfold ss, run_files. cbn [utcnow snd]. now rewrite E.
  - intro E. destruct H3 as (new & -> & Hin).
    apply dict_get_app_notin. intro G. now apply Hin in G.
Qed.

(** C9. The clock is read once, before the loop, and every document the
    run writes (season documents in [generated_at], the manifest in the
    [last_updated] of each entry) and every summary of the run carries
    that one reading, whatever the files and whatever the clock returns
    later. *)
Theorem one_timestamp_per_run
        (h : host) (files : list Path) (raw_mode : bool) (w : world) :
  let now_iso := utc_clock h (clock_reads w) ++ py "Z" in
  let w' := snd (_process_files h files raw_mode w) in
  (exists new, disk w' = new ++ disk w
               /\ Forall (fun fj => stamped now_iso (snd fj)) new)
  /\ Forall (fun s => last_updated s = now_iso)
            (run_summaries h files raw_mode w)
  /\ clock_reads w'
     = if mkdir_fails h then clock_reads w else S (clock_reads w).
Proof.
  cbv zeta. unfold run_summaries, _process_files.
  pose proof (run_files_inv h files raw_mode w) as Hinv.
  destruct Hinv as [(new & Hd & Hnew) Hst Hck].
  cbn [utcnow snd disk clock_reads] in Hd, Hck.
  assert (Hnew' : Forall (fun fj : str * json =>
                            stamped (utc_clock h (clock_reads w) ++ py "Z")
                                    (snd fj)) new).
  { eapply Forall_impl; [|exact Hnew]. now intros fj [_ H]. }
  split; [|split; [exact Hst|]].
  - destruct (mkdir_fails h).
    { exists []. split; [reflexivity | constructor]. }
    destruct (candidate_files h files) as [|fp cands].
    { exists []. split; [reflexivity | constructor]. }
    destruct (snd (run_files h files raw_mode w)) as [[|e] st]; cbn [snd] in *.
    + unfold update_manifest. destruct (seasons st) as [|s ss] eqn:Hs.
      * exists new. cbn [log disk]. auto.
      * unfold write_json. destruct (write_ends h (writes (rworld st))).
        -- exists ((MANIFEST_FILE, ManifestDoc 1 (merge_manifest (s :: ss)))
                   :: new).
           cbn [log disk]. split; [now rewrite Hd|].
           constructor; [|assumption]. cbn [snd stamped].
           rewrite Forall_forall in *. intros t Ht.
           apply Hst. now apply merge_manifest_incl.
        -- exists new. cbn [log disk]. auto.
        -- exists ((MANIFEST_FILE, Truncated) :: new).
           cbn [log disk]. split; [now rewrite Hd|].
           constructor; [exact I | assumption].
    + exists new. auto.
  - destruct (mkdir_fails h); [reflexivity|].
    destruct (candidate_files h files) as [|fp cands]; [reflexivity|].
    destruct (snd (run_files h files raw_mode w)) as [[|e] st]; cbn [snd] in *.
    + unfold update_manifest. destruct (seasons st) as [|s ss] eqn:Hs.
      * exact Hck.
      * unfold write_json.
        destruct (write_ends h (writes (rworld st))); exact Hck.
    + exact Hck.
Qed.

Unset Implicit Arguments.

(** ** Decimal digits *)

Lemma is_digit_spec (c : char) : is_digit c = true <-> (48 <= c <= 57)%N.
Proof. unfold is_digit. rewrite andb_true_iff, !N.leb_le. tauto. Qed.

Lemma digits_val_snoc (ds : str) (c : char) :
  digits_val (ds ++ [c]) = (digits_val ds * 10 + (c - 48))%N.
Proof. unfold digits_val. now rewrite fold_left_app. Qed.

Lemma digits_val_app (a b : str) :
  digits_val (a ++ b)
  = (digits_val a * 10 ^ N.of_nat (length b) + digits_val b)%N.
Proof.
  induction b as [|c b IH] using rev_ind.
  - rewrite app_nil_r. simpl. change (digits_val []) with 0%N. lia.
  - rewrite app_assoc, !digits_val_snoc, IH, length_app. simpl length.
    rewrite Nat.add_1_r, Nat2N.inj_succ, N.pow_succ_r'. lia.
Qed.

Lemma digits_val_zeros (k : nat) : digits_val (zeros k) = 0%N.
Proof.
  induction k as [|k IH]; [reflexivity|].
  unfold zeros in *. change (repeat 48%N (S k)) with ([48%N] ++ repeat 48%N k).
  rewrite digits_val_app, IH. reflexivity.
Qed.

Lemma zeros_length (k : nat) : length (zeros k) = k.
Proof. apply repeat_length. Qed.


Lemma mod10_lt (n : N) : (n mod 10 < 10)%N.
Proof. apply N.mod_lt. discriminate. Qed.

Lemma div10_mod10 (n : N) : n = (10 * (n / 10) + n mod 10)%N.
Proof. apply N.div_mod. discriminate. Qed.

Lemma digits_aux_S (f : nat) (n : N) (acc : str) :
  digits_aux (S f) n acc
  = if (n / 10 =? 0)%N then (48 + n mod 10)%N :: acc
    else digits_aux f (n / 10)%N ((48 + n mod 10)%N :: acc).
Proof. reflexivity. Qed.

Lemma strip10_S (f : nat) (m : N) (e : Z) :
  strip10 (S f) m e
  = if (m mod 10 =? 0)%N then strip10 f (m / 10)%N (e + 1)%Z else (m, e).
Proof. reflexivity. Qed.

(** Name the quotient and remainder of [n] by ten. *)
Ltac split10 n q r :=
  pose proof (div10_mod10 n); pose proof (mod10_lt n);
  let Hq := fresh in let Hr := fresh in
  remember (n / 10)%N as q eqn:Hq; remember (n mod 10)%N as r eqn:Hr;
  clear Hq Hr.

Lemma digits_aux_spec (fuel : nat) (n : N) (acc : str) :
  (n < 2 ^ N.of_nat fuel)%N -> fuel <> 0 ->
  exists ds, digits_aux fuel n acc = ds ++ acc
             /\ all_digits ds /\ ds <> [] /\ digits_val ds = n.
Proof.
  revert n acc. induction fuel as [|f IH]; intros n acc Hn Hf; [easy|].
  rewrite digits_aux_S.
  rewrite Nat2N.inj_succ, N.pow_succ_r' in Hn.
  split10 n q r.
  assert (Hd : is_digit (48 + r)%N = true).
  { apply is_digit_spec. lia. }
  destruct (q =? 0)%N eqn:E.
  - apply N.eqb_eq in E. exists [(48 + r)%N].
    split; [reflexivity|]. split; [now repeat constructor|].
    split; [discriminate|].
    change (digits_val [(48 + r)%N]) with (0 * 10 + (48 + r - 48))%N.
    lia.
  - apply N.eqb_neq in E.
    assert (Hlt : (q < 2 ^ N.of_nat f)%N) by lia.
    assert (Hf' : f <> 0).
    { intros ->. simpl in Hlt. lia. }
    destruct (IH q ((48 + r)%N :: acc) Hlt Hf') as (ds & -> & Hds & Hne & Hv).
    exists (ds ++ [(48 + r)%N]).
    split; [now rewrite <- app_assoc|].
    split; [apply Forall_app; split; [assumption | now repeat constructor]|].
    split; [now destruct ds|].
    rewrite digits_val_snoc, Hv. lia.
Qed.

Lemma digits_spec (n : N) :
  all_digits (digits n) /\ digits n <> [] /\ digits_val (digits n) = n.
Proof.
  unfold digits.
  destruct (@digits_aux_spec (S (N.to_nat (N.log2 n))) n []) as (ds & E & H).
  - rewrite Nat2N.inj_succ, N2Nat.id.
    destruct n as [|p]; [reflexivity|].
    apply N.log2_spec. lia.
  - discriminate.
  - rewrite E, app_nil_r. exact H.
Qed.

(** ** Canonical form *)

Lemma strip10_spec (fuel : nat) (m : N) (e : Z) :
  m <> 0%N -> (m < 2 ^ N.of_nat fuel)%N ->
  exists j : N,
    strip10 fuel m e = ((m / 10 ^ j)%N, (e + Z.of_N j)%Z)
    /\ (m = (m / 10 ^ j) * 10 ^ j)%N
    /\ ((m / 10 ^ j) mod 10 <> 0)%N.
Proof.
  revert m e. induction fuel as [|f IH]; intros m e Hm Hlt.
  - simpl in Hlt. lia.
  - rewrite strip10_S. destruct (m mod 10 =? 0)%N eqn:E.
    + apply N.eqb_eq in E.
      rewrite Nat2N.inj_succ, N.pow_succ_r' in Hlt.
      assert (Hq : (m / 10 <> 0)%N /\ (m / 10 < 2 ^ N.of_nat f)%N
                   /\ m = (10 * (m / 10))%N).
      { split10 m q r. lia. }
      destruct Hq as (Hq & Hq' & Hm10).
      destruct (IH (m / 10)%N (e + 1)%Z Hq Hq') as (j & Hs & Hv & Hnz).
      exists (N.succ j).
      assert (Hdiv : (m / 10 ^ N.succ j = m / 10 / 10 ^ j)%N).
      { rewrite N.pow_succ_r', N.Div0.div_div. reflexivity. }
      rewrite Hdiv, Hs. split; [f_equal; lia|]. split; [|assumption].
      rewrite N.pow_succ_r'.
      remember (m / 10 / 10 ^ j)%N as a. remember (10 ^ j)%N as b.
      remember (m / 10)%N as q. nia.
    + apply N.eqb_neq in E. exists 0%N.
      rewrite N.pow_0_r, N.div_1_r. split; [f_equal; lia|].
      split; [lia | assumption].
Qed.

Lemma log2_fuel (m : N) : (m < 2 ^ N.of_nat (S (N.to_nat (N.log2 m))))%N.
Proof.
  rewrite Nat2N.inj_succ, N2Nat.id.
  destruct m as [|p]; [reflexivity|]. apply N.log2_spec. lia.
Qed.

(** [fnorm] returns a canonical float of the same value whose exponent
    is no smaller. *)
Lemma fnorm_spec (neg : bool) (m : N) (e : Z) :
  exists m' e',
    fnorm neg m e = FFin neg m' e' /\ canonical m' e'
    /\ ((m = 0%N /\ m' = 0%N)
        \/ (m <> 0%N /\ (e <= e')%Z /\ m = (m' * 10 ^ Z.to_N (e' - e))%N)).
Proof.
  unfold fnorm. destruct (m =? 0)%N eqn:E.
  - apply N.eqb_eq in E. exists 0%N, 0%Z.
    split; [reflexivity|]. split; [left; auto | left; auto].
  - apply N.eqb_neq in E.
    destruct (@strip10_spec (S (N.to_nat (N.log2 m))) m e E (log2_fuel m))
      as (j & -> & Hv & Hnz).
    exists (m / 10 ^ j)%N, (e + Z.of_N j)%Z.
    split; [reflexivity|]. split.
    + right. split; [|assumption]. intro Hz. rewrite Hz in Hv. simpl in Hv. lia.
    + right. split; [assumption|]. split; [lia|].
      replace (e + Z.of_N j - e)%Z with (Z.of_N j) by lia.
      now rewrite N2Z.id.
Qed.




Lemma fnorm_zero (neg : bool) (e : Z) : fnorm neg 0 e = FFin neg 0 0.
Proof. reflexivity. Qed.

(** ** Reading back what [repr] prints *)










Lemma digits_val_trail_zeros (ds : str) (k : nat) :
  digits_val (ds ++ zeros k) = (digits_val ds * 10 ^ N.of_nat k)%N.
Proof. rewrite digits_val_app, digits_val_zeros, zeros_length. lia. Qed.




(** ** Stripping and replacing *)

Lemma lstrip_stop (s : str) : stops_at is_space s -> lstrip s = s.
Proof. destruct s as [|c s]; simpl; [reflexivity|]. now intros ->. Qed.

Lemma lstrip_stops (s : str) : stops_at is_space (lstrip s).
Proof.
  induction s as [|c s IH]; simpl; [exact I|].
  destruct (is_space c) eqn:E; [assumption | exact E].
Qed.

Lemma lstrip_app_keep (a b : str) (c : char) :
  is_space c = false -> lstrip (a ++ c :: b) = lstrip a ++ c :: b.
Proof.
  intro Hc. induction a as [|x a IH]; simpl.
  - now rewrite Hc.
  - destruct (is_space x); [assumption | reflexivity].
Qed.

Lemma rstrip_cons_keep (c : char) (s : str) :
  is_space c = false -> rstrip (c :: s) = c :: rstrip s.
Proof.
  intro Hc. unfold rstrip. simpl rev.
  rewrite lstrip_app_keep by assumption.
  now rewrite rev_app_distr.
Qed.


Lemma rstrip_stops (s : str) : stops_at is_space s -> stops_at is_space (rstrip s).
Proof.
  destruct s as [|c s]; [intros _; exact I|].
  simpl. intro Hc. now rewrite rstrip_cons_keep.
Qed.


Lemma strip_no_space (s : str) : no_space s -> strip s = s.
Proof.
  intro H. unfold strip, rstrip.
  assert (E : forall t, no_space t -> lstrip t = t).
  { intros t Ht. apply lstrip_stop. destruct Ht; [exact I | assumption]. }
  rewrite (E s H), E, rev_involutive; [reflexivity|].
  now apply Forall_rev.
Qed.


Lemma replace_removes (old : char) (s : str) : ~ In old (replace old [] s).
Proof.
  unfold replace. induction s as [|c s IH]; simpl; [easy|].
  unfold char_eqb. destruct (c =? old)%N eqn:E; simpl; [assumption|].
  apply N.eqb_neq in E. intros [G|G]; [congruence | contradiction].
Qed.





Lemma clean_cell_eq (x : cell) : clean_cell x = CStr (clean_str (astype_str x)).
Proof. reflexivity. Qed.


Lemma clean_str_no_minus (s : str) : ~ In 45%N (clean_str s).
Proof. apply replace_removes. Qed.



(** ** What a float column holds after [normalize_df] *)

Lemma round2_rounded (f : float) : unsigned f -> rounded (round2 f).
Proof.
  intros [| |m e Hc]; try constructor.
  unfold round2. destruct (-2 <=? e)%Z eqn:E.
  - apply Z.leb_le in E. now constructor.
  - match goal with |- rounded (fnorm false ?k (-2)) =>
      destruct (fnorm_spec false k (-2)) as (m' & e' & -> & Hc' & Hv)
    end.
    constructor; [assumption|].
    destruct Hv as [[_ ->]|(_ & H & _)]; [|assumption].
    destruct Hc' as [[_ ->]|[H _]]; [lia | congruence].
Qed.






(** ** Reading a string without a hyphen *)

Lemma span_snd_incl (p : char -> bool) (s : str) (c : char) :
  In c (snd (span p s)) -> In c s.
Proof.
  induction s as [|x s IH]; simpl; [easy|].
  destruct (p x).
  - destruct (span p s) as [a b]. simpl in *. auto.
  - simpl. auto.
Qed.

Lemma read_sign_neg (s s' : str) : read_sign s = (true, s') -> In 45%N s.
Proof.
  destruct s as [|c s]; simpl; [discriminate|].
  destruct (c =? 45)%N eqn:E.
  - apply N.eqb_eq in E. now left.
  - destruct (c =? 43)%N; discriminate.
Qed.

(** [to_double] returns a canonical finite float, negative only when the
    string holds a hyphen. *)
Lemma to_double_shape (s : str) (f : float) (b : bool) :
  to_double s = Some (f, b) ->
  exists neg m e, f = FFin neg m e /\ canonical m e
                  /\ (neg = true -> In 45%N s).
Proof.
  unfold to_double.
  destruct (read_sign (snd (span is_space_ascii s))) as [neg s1] eqn:Hs.
  destruct (span is_digit s1) as [ip s2].
  destruct (read_fraction s2) as [fp s3].
  match goal with
  | |- match ?l with [] => _ | _ => _ end = _ -> _ => destruct l as [|c ds]
  end; [intros [=]|].
  destruct (read_exponent s3) as [ex s4].
  destruct (snd (span is_space_ascii s4)); [|intros [=]].
  intros [= <- _].
  match goal with |- context [fnorm neg ?m ?e] =>
    destruct (fnorm_spec neg m e) as (m' & e' & -> & Hc & _)
  end.
  exists neg, m', e'. split; [reflexivity|]. split; [assumption|].
  intros ->. apply read_sign_neg in Hs. now apply span_snd_incl in Hs.
Qed.

Lemma ascii_lower_minus (c : char) : ascii_lower c = 45%N -> c = 45%N.
Proof.
  unfold ascii_lower. destruct ((65 <=? c) && (c <=? 90))%N eqn:E; [|easy].
  apply andb_true_iff in E. rewrite !N.leb_le in E. lia.
Qed.

Lemma floatify_unsigned (s : str) (f : float) (b : bool) :
  ~ In 45%N s -> floatify s = Some (f, b) -> unsigned f.
Proof.
  intros Hs. unfold floatify.
  destruct (to_double s) as [[f' b']|] eqn:E.
  - intros [= <- <-]. apply to_double_shape in E.
    destruct E as (neg & m & e & -> & Hc & Hneg).
    destruct neg; [exfalso; now apply Hs, Hneg | now constructor].
  - destruct (str_in (map ascii_lower s) _).
    + intros [= <- _]. constructor.
    + destruct (str_in (map ascii_lower s) [py "-inf"; py "-infinity"]) eqn:F;
        [|discriminate].
      exfalso. apply Hs. apply str_in_In in F.
      destruct s as [|c s]; [now destruct F as [F|[F|[]]]|].
      left. apply ascii_lower_minus.
      destruct F as [F|[F|[]]]; injection F; intros; congruence.
Qed.

Lemma parse_cell_unsigned (s : str) :
  ~ In 45%N s -> unsigned_num (parse_cell (CStr s)).
Proof.
  intro Hs. unfold parse_cell.
  destruct (floatify s) as [[f b]|] eqn:E; [|constructor].
  apply floatify_unsigned in E; [|assumption].
  destruct E as [| |m e Hc]; try (destruct b; constructor).
  destruct b; [|now constructor].
  simpl. apply Z.mul_nonneg_nonneg; [lia|]. apply Z.pow_nonneg. lia.
Qed.

Lemma parse_clean_unsigned (x : cell) : unsigned_num (parse_cell (clean_cell x)).
Proof. rewrite clean_cell_eq. apply parse_cell_unsigned, clean_str_no_minus. Qed.

Lemma float_of_Z_unsigned (z : Z) : (0 <= z)%Z -> unsigned (float_of_Z z).
Proof.
  intro Hz. unfold float_of_Z.
  replace (z <? 0)%Z with false by (symmetry; now apply Z.ltb_ge).
  destruct (fnorm_spec false (Z.abs_N z) 0) as (m & e & -> & Hc & _).
  now constructor.
Qed.

(** ** Columns *)

Lemma to_numeric_eq (col : column) :
  to_numeric col
  = if forallb num_is_int (map parse_cell col)
    then map (fun x => match parse_cell x with
                       | NInt z => CInt z
                       | NFloat f => CFloat f
                       end) col
    else map (fun x => CFloat (num_float (parse_cell x))) col.
Proof.
  unfold to_numeric. rewrite !map_map. reflexivity.
Qed.

Lemma forallb_parse_int (col : column) :
  forallb num_is_int (map parse_cell col) = true ->
  forall x, In x col -> exists z, parse_cell x = NInt z.
Proof.
  rewrite forallb_forall. intros H x Hx.
  specialize (H (parse_cell x) (in_map _ _ _ Hx)).
  destruct (parse_cell x) as [z|f]; [now exists z | discriminate].
Qed.

Lemma float_column_ok (col : column) : float_col_ok (float_column col).
Proof.
  unfold float_column. rewrite to_numeric_eq.
  destruct (forallb num_is_int (map parse_cell (map clean_cell col))) eqn:E.
  - left. rewrite !map_map. apply Forall_forall. intros y Hy.
    apply in_map_iff in Hy. destruct Hy as (x & <- & Hx).
    pose proof (parse_clean_unsigned x) as Hu.
    destruct (forallb_parse_int _ E (clean_cell x) (in_map _ _ _ Hx)) as (z & Hz).
    rewrite Hz in *. exists z. split; [reflexivity | exact Hu].
  - right. rewrite !map_map. apply Forall_forall. intros y Hy.
    apply in_map_iff in Hy. destruct Hy as (x & <- & Hx).
    pose proof (parse_clean_unsigned x) as Hu.
    cbn [round_cell]. eexists. split; [reflexivity|].
    apply round2_rounded.
    destruct (parse_cell (clean_cell x)) as [z|f]; cbn [num_float].
    + now apply float_of_Z_unsigned.
    + exact Hu.
Qed.



(** ** Integer columns, cell by cell *)

Lemma mapM_Ok A (l : list A) : mapM (fun x => Ok x) l = Ok l.
Proof. induction l as [|x l IH]; simpl; [reflexivity|]. now rewrite IH. Qed.

Lemma mapM_map A B C (g : A -> B) (f : B -> result C) (l : list A) :
  mapM f (map g l) = mapM (fun x => f (g x)) l.
Proof. induction l as [|x l IH]; simpl; [reflexivity|]. now rewrite IH. Qed.

Lemma mapM_ext_in A B (f g : A -> result B) (l : list A) :
  (forall x, In x l -> f x = g x) -> mapM f l = mapM g l.
Proof.
  induction l as [|x l IH]; simpl; intro H; [reflexivity|].
  rewrite (H x (or_introl eq_refl)), IH; [reflexivity|]. auto.
Qed.


Lemma mapM_Forall A B (f : A -> result B) (P : B -> Prop) (l : list A) (l' : list B) :
  mapM f l = Ok l' -> (forall x y, f x = Ok y -> P y) -> Forall P l'.
Proof.
  revert l'. induction l as [|a l IH]; intros l' H HP; simpl in H.
  - injection H as <-. constructor.
  - destruct (f a) as [b|e] eqn:Ha; [|discriminate].
    simpl in H. destruct (mapM f l) as [bs|e] eqn:Hl; [|discriminate].
    injection H as <-. constructor; eauto.
Qed.


Lemma astype_int_of_Z (z : Z) :
  astype_int (fillna0 (CFloat (float_of_Z z))) = Ok (CInt z).
Proof.
  unfold float_of_Z.
  destruct (fnorm_spec (z <? 0)%Z (Z.abs_N z) 0) as (m & e & E & Hc & Hv).
  rewrite E. cbn [fillna0 astype_int].
  assert (He : (0 <= e)%Z /\ (Z.of_N m * 10 ^ e = Z.abs z)%Z).
  { destruct Hv as [[Hz ->]|(_ & Hle & Hz)].
    - destruct Hc as [[_ ->]|[H _]]; [|congruence]. lia.
    - split; [assumption|]. rewrite Z.sub_0_r in Hz.
      rewrite <- N2Z.inj_abs_N, Hz, N2Z.inj_mul, N2Z.inj_pow, Z2N.id
        by assumption.
      reflexivity. }
  destruct He as [He Hval].
  replace (0 <=? e)%Z with true by (symmetry; now apply Z.leb_le).
  rewrite Hval. f_equal. f_equal.
  destruct (z <? 0)%Z eqn:Hz; [apply Z.ltb_lt in Hz | apply Z.ltb_ge in Hz]; lia.
Qed.

Lemma int_column_cells (col : column) :
  int_column col = mapM int_of_cell col.
Proof.
  unfold int_column. rewrite to_numeric_eq.
  destruct (forallb num_is_int (map parse_cell col)) eqn:E.
  - rewrite !map_map, mapM_map. apply mapM_ext_in. intros x Hx.
    destruct (forallb_parse_int _ E x Hx) as (z & Hz).
    unfold int_of_cell. now rewrite Hz.
  - rewrite !map_map, mapM_map. apply mapM_ext_in. intros x Hx.
    unfold int_of_cell. destruct (parse_cell x) as [z|f]; cbn [num_float].
    + apply astype_int_of_Z.
    + reflexivity.
Qed.




(** ** Tables *)

Lemma getcol_app_notin (d1 d2 : DataFrame) (c : str) :
  ~ In c (columns d1) -> getcol (d1 ++ d2) c = getcol d2 c.
Proof.
  induction d1 as [|[n col] d1 IH]; simpl; intro H; [reflexivity|].
  destruct (str_eqb n c) eqn:E.
  - apply str_eqb_eq in E. subst. exfalso. apply H. now left.
  - apply IH. intro G. apply H. now right.
Qed.

Lemma getcol_notin (df : DataFrame) (c : str) :
  ~ In c (columns df) -> getcol df c = [].
Proof.
  intro H. rewrite <- (app_nil_r df), getcol_app_notin by assumption.
  reflexivity.
Qed.

Lemma getcol_head (n : str) (col : column) (df : DataFrame) :
  getcol ((n, col) :: df) n = col.
Proof. simpl. now rewrite str_eqb_refl. Qed.

Lemma setcol_notin (df : DataFrame) (c : str) (v : column) :
  ~ In c (columns df) -> setcol df c v = df.
Proof.
  unfold setcol. induction df as [|[n col] df IH]; simpl; intro H; [reflexivity|].
  destruct (str_eqb n c) eqn:E.
  - apply str_eqb_eq in E. subst. exfalso. apply H. now left.
  - f_equal. apply IH. intro G. apply H. now right.
Qed.

Lemma setcol_app (d1 d2 : DataFrame) (c : str) (v : column) :
  setcol (d1 ++ d2) c v = setcol d1 c v ++ setcol d2 c v.
Proof. unfold setcol. apply map_app. Qed.

Lemma columns_app (d1 d2 : DataFrame) :
  columns (d1 ++ d2) = columns d1 ++ columns d2.
Proof. unfold columns. apply map_app. Qed.

(** With distinct column names, a loop over the names that rewrites the
    column of each name in [set] treats the table column by column. *)
Lemma for_columns_steps (set : list str) (f : column -> result column)
      (todo done : DataFrame) :
  NoDup (columns (done ++ todo)) ->
  for_columns (columns todo) (loop_body set f) (done ++ todo)
  = (todo' <- mapM (col_step set f) todo ;; Ok (done ++ todo')).
Proof.
  revert done. induction todo as [|[c col] todo IH]; intros done Hnd.
  - reflexivity.
  - assert (Hc1 : ~ In c (columns done) /\ ~ In c (columns todo)).
    { rewrite columns_app in Hnd. cbn in Hnd.
      apply NoDup_remove_2 in Hnd. rewrite in_app_iff in Hnd. tauto. }
    destruct Hc1 as [Hc1 Hc2].
    assert (Hnd' : forall v, NoDup (columns ((done ++ [(c, v)]) ++ todo))).
    { intro v. rewrite <- app_assoc. rewrite columns_app in *. exact Hnd. }
    cbn [columns map fst for_columns mapM].
    unfold loop_body at 1, col_step at 1. cbn [fst snd].
    destruct (str_in c set).
    + rewrite getcol_app_notin, getcol_head by assumption.
      destruct (f col) as [v|e]; [|reflexivity].
      cbn [bind].
      rewrite setcol_app, (setcol_notin done) by assumption.
      unfold setcol at 1. cbn [map fst]. rewrite str_eqb_refl.
      fold (setcol todo c v). rewrite (setcol_notin todo) by assumption.
      change (done ++ (c, v) :: todo) with (done ++ [(c, v)] ++ todo).
      rewrite app_assoc. fold (columns todo).
      rewrite (IH _ (Hnd' v)).
      destruct (mapM (col_step set f) todo) as [t|e]; [|reflexivity].
      cbn [bind]. now rewrite <- app_assoc.
    + cbn [bind].
      change (done ++ (c, col) :: todo) with (done ++ [(c, col)] ++ todo).
      rewrite app_assoc. fold (columns todo).
      rewrite (IH _ (Hnd' col)).
      destruct (mapM (col_step set f) todo) as [t|e]; [|reflexivity].
      cbn [bind]. now rewrite <- app_assoc.
Qed.

Lemma for_columns_mapM (set : list str) (f : column -> result column)
      (df : DataFrame) :
  NoDup (columns df) ->
  for_columns (columns df) (loop_body set f) df = mapM (col_step set f) df.
Proof.
  intro H. pose proof (for_columns_steps set f df [] H) as E.
  cbn [app] in E. rewrite E.
  now destruct (mapM (col_step set f) df).
Qed.

Lemma col_step_pure (set : list str) (g : column -> column) (df : DataFrame) :
  mapM (col_step set (fun col => Ok (g col))) df = Ok (map (pure_step set g) df).
Proof.
  induction df as [|nc df IH]; simpl; [reflexivity|].
  rewrite IH. unfold col_step, pure_step.
  now destruct (str_in (fst nc) set).
Qed.

Lemma columns_pure_step (set : list str) (g : column -> column) (df : DataFrame) :
  columns (map (pure_step set g) df) = columns df.
Proof.
  unfold columns. rewrite map_map. apply map_ext. intro nc.
  unfold pure_step. now destruct (str_in (fst nc) set).
Qed.

Lemma normalize_df_steps (df : DataFrame) :
  NoDup (columns df) -> normalize_df df = mapM norm_step df.
Proof.
  intro Hnd. unfold normalize_df.
  change (fun c df0 => if str_in c STR_COLS
                       then Ok (setcol df0 c (trim_column (getcol df0 c)))
                       else Ok df0)
    with (loop_body STR_COLS (fun col => Ok (trim_column col))).
  rewrite for_columns_mapM, col_step_pure by assumption. cbn [bind].
  change (fun c df0 => if str_in c FLOAT_COLS
                       then Ok (setcol df0 c (float_column (getcol df0 c)))
                       else Ok df0)
    with (loop_body FLOAT_COLS (fun col => Ok (float_column col))).
  rewrite for_columns_mapM, col_step_pure by now rewrite columns_pure_step.
  cbn [bind].
  change (fun c df0 => if str_in c INT_COLS
                       then col <- int_column (getcol df0 c) ;; Ok (setcol df0 c col)
                       else Ok df0)
    with (loop_body INT_COLS int_column).
  rewrite for_columns_mapM by now rewrite !columns_pure_step.
  rewrite !mapM_map. reflexivity.
Qed.

Lemma pure_step_name (set : list str) (g : column -> column) (nc : str * column) :
  fst (pure_step set g nc) = fst nc.
Proof. unfold pure_step. now destruct (str_in (fst nc) set). Qed.

Lemma col_step_name (set : list str) (f : column -> result column)
      (nc nc' : str * column) :
  col_step set f nc = Ok nc' -> fst nc' = fst nc.
Proof.
  unfold col_step. destruct (str_in (fst nc) set).
  - destruct (f (snd nc)); cbn [bind]; [|discriminate]. now intros [= <-].
  - now intros [= <-].
Qed.

Lemma norm_step_name (nc nc' : str * column) :
  norm_step nc = Ok nc' -> fst nc' = fst nc.
Proof.
  unfold norm_step. intro H. apply col_step_name in H.
  now rewrite !pure_step_name in H.
Qed.

Lemma mapM_columns (df df' : DataFrame) :
  mapM norm_step df = Ok df' -> columns df' = columns df.
Proof.
  revert df'. induction df as [|nc df IH]; intros df' H; simpl in H.
  - now injection H as <-.
  - destruct (norm_step nc) as [nc'|e] eqn:E; [|discriminate].
    simpl in H. destruct (mapM norm_step df) as [d|e]; [|discriminate].
    injection H as <-. cbn. f_equal; [now apply norm_step_name | now apply IH].
Qed.

Lemma mapM_getcol (df df' : DataFrame) (c : str) :
  mapM norm_step df = Ok df' -> In c (columns df) ->
  norm_step (c, getcol df c) = Ok (c, getcol df' c).
Proof.
  revert df'. induction df as [|[n col] df IH]; intros df' H Hin; [easy|].
  simpl in H. destruct (norm_step (n, col)) as [[n' col']|e] eqn:E; [|discriminate].
  simpl in H. destruct (mapM norm_step df) as [d|e]; [|discriminate].
  injection H as <-.
  pose proof (norm_step_name _ _ E) as Hn. cbn in Hn. subst n'.
  cbn [getcol]. destruct (str_eqb n c) eqn:F.
  - apply str_eqb_eq in F. now subst.
  - apply IH; [reflexivity|]. destruct Hin as [Hin|Hin]; [|assumption].
    cbn in Hin. subst. now rewrite str_eqb_refl in F.
Qed.

(** The three sets of names are pairwise disjoint. *)
Lemma typed_sets_disjoint (c : str) :
  (str_in c STR_COLS = true ->
   str_in c FLOAT_COLS = false /\ str_in c INT_COLS = false)
  /\ (str_in c FLOAT_COLS = true ->
      str_in c STR_COLS = false /\ str_in c INT_COLS = false)
  /\ (str_in c INT_COLS = true ->
      str_in c STR_COLS = false /\ str_in c FLOAT_COLS = false).
Proof.
  repeat split; apply str_in_In in H;
    repeat (destruct H as [<-|H]; [reflexivity|]); destruct H.
Qed.

Lemma norm_step_str (c : str) (col : column) :
  str_in c STR_COLS = true -> norm_step (c, col) = Ok (c, trim_column col).
Proof.
  intro H. destruct (proj1 (typed_sets_disjoint c) H) as [H1 H2].
  unfold norm_step, col_step, pure_step. cbn [fst snd].
  rewrite H. cbn [fst snd]. rewrite H1. cbn [fst snd]. now rewrite H2.
Qed.

Lemma norm_step_float (c : str) (col : column) :
  str_in c FLOAT_COLS = true -> norm_step (c, col) = Ok (c, float_column col).
Proof.
  intro H. destruct (proj1 (proj2 (typed_sets_disjoint c)) H) as [H1 H2].
  unfold norm_step, col_step, pure_step. cbn [fst snd].
  rewrite H1. cbn [fst snd]. rewrite H. cbn [fst snd]. now rewrite H2.
Qed.

Lemma norm_step_int (c : str) (col : column) :
  str_in c INT_COLS = true ->
  norm_step (c, col) = (col' <- int_column col ;; Ok (c, col')).
Proof.
  intro H. destruct (proj2 (proj2 (typed_sets_disjoint c)) H) as [H1 H2].
  unfold norm_step, col_step, pure_step. cbn [fst snd].
  rewrite H1. cbn [fst snd]. rewrite H2. cbn [fst snd]. now rewrite H.
Qed.

Lemma norm_step_other (c : str) (col : column) :
  str_in c STR_COLS = false -> str_in c FLOAT_COLS = false ->
  str_in c INT_COLS = false -> norm_step (c, col) = Ok (c, col).
Proof.
  intros H1 H2 H3. unfold norm_step, col_step, pure_step. cbn [fst snd].
  rewrite H1. cbn [fst snd]. rewrite H2. cbn [fst snd]. now rewrite H3.
Qed.


(** ** The normalizer, cell by cell *)

Lemma cell_at_in (df : DataFrame) (c : str) (i : nat) (x : cell) :
  cell_at df c i = Some x -> In c (columns df).
Proof.
  unfold cell_at. intro H.
  destruct (str_in c (columns df)) eqn:E; [now apply str_in_In|].
  apply str_in_not_In in E. rewrite (getcol_notin df c E) in H.
  destruct i; discriminate.
Qed.

Lemma normalized_column (df df' : DataFrame) (c : str) :
  NoDup (columns df) -> normalize_df df = Ok df' -> In c (columns df) ->
  norm_step (c, getcol df c) = Ok (c, getcol df' c).
Proof.
  intros Hnd H Hin. rewrite normalize_df_steps in H by assumption.
  now apply mapM_getcol.
Qed.

Lemma normalized_columns (df df' : DataFrame) :
  NoDup (columns df) -> normalize_df df = Ok df' -> columns df' = columns df.
Proof.
  intros Hnd H. rewrite normalize_df_steps in H by assumption.
  now apply mapM_columns.
Qed.







(** C10. After normalization every cell of a numeric-with-decimals
    column is the missing marker or a non-negative number: no hyphen
    reaches the parser, so no sign does. *)
Theorem float_cells_nonneg
        (df df' : DataFrame) (c : str) (i : nat) (y : cell) :
  NoDup (columns df) ->
  normalize_df df = Ok df' ->
  str_in c FLOAT_COLS = true ->
  cell_at df' c i = Some y ->
  y = NaN \/ nonneg_number y.
Proof.
  intros Hnd Hn Hc Hy.
  assert (Hin : In c (columns df)).
  { rewrite <- (normalized_columns df df' Hnd Hn). eapply cell_at_in; eassumption. }
  pose proof (normalized_column df df' c Hnd Hn Hin) as H.
  rewrite norm_step_float in H by assumption. injection H as H.
  unfold cell_at in Hy. rewrite <- H in Hy. apply nth_error_In in Hy.
  destruct (float_column_ok (getcol df c)) as [Hok|Hok];
    rewrite Forall_forall in Hok; specialize (Hok y Hy).
  - destruct Hok as (z & -> & Hz). now right.
  - destruct Hok as (f & -> & [| |m e _ _]); [now left | now right | now right].
Qed.


(** ** When the normalizer returns *)

Lemma mapM_returns A B (f : A -> result B) (l : list A) :
  (exists l', mapM f l = Ok l') <-> forall x, In x l -> exists y, f x = Ok y.
Proof.
  induction l as [|a l IH]; simpl.
  - split; [intros _ x [] | intros _; now exists []].
  - split.
    + intros (l' & H) x [<-|Hx].
      * destruct (f a) as [b|e]; [now exists b | discriminate].
      * destruct (f a) as [b|e]; [|discriminate]. simpl in H.
        destruct (mapM f l) as [bs|e] eqn:E; [|discriminate].
        apply (proj1 IH); [now exists bs | assumption].
    + intro H. destruct (H a (or_introl eq_refl)) as (b & ->). simpl.
      destruct (proj2 IH) as (bs & ->); [auto|]. now exists (b :: bs).
Qed.

Lemma int_of_cell_returns (x : cell) :
  (exists y, int_of_cell x = Ok y) <-> forall neg, parse_cell x <> NFloat (FInf neg).
Proof.
  unfold int_of_cell. destruct (parse_cell x) as [z|[|neg|neg m e]]; simpl; split;
    try (intros _; eexists; reflexivity); try (intros; discriminate).
  - intros (y & H). discriminate.
  - intro H. now destruct (H neg).
Qed.

(** X1. On a table with distinct column names the normalizer returns a
    table exactly when no cell of an integer column reads as an infinity;
    otherwise [astype(int)] raises. *)
Theorem normalize_df_returns (df : DataFrame) :
  NoDup (columns df) ->
  (exists df', normalize_df df = Ok df') <-> int_columns_finite df.
Proof.
  intro Hnd. rewrite normalize_df_steps by assumption.
  unfold int_columns_finite. split.
  - intros H0 [c col] x neg Hin Hc Hx. cbn [fst snd] in *.
    pose proof (proj1 (mapM_returns _ _ norm_step df) H0) as H.
    destruct (H (c, col) Hin) as (y & Hy).
    rewrite norm_step_int in Hy by assumption.
    destruct (int_column col) as [col'|e] eqn:E; [|discriminate].
    rewrite int_column_cells in E.
    assert (G : exists l', mapM int_of_cell col = Ok l') by now exists col'.
    apply (proj1 (mapM_returns _ _ _ _)) with (x := x) in G; [|assumption].
    now apply int_of_cell_returns.
  - intro H. apply (proj2 (mapM_returns _ _ norm_step df)).
    intros [c col] Hin.
    destruct (str_in c INT_COLS) eqn:Hc.
    + rewrite norm_step_int by assumption.
      assert (G : exists l', mapM int_of_cell col = Ok l').
      { apply mapM_returns. intros x Hx. apply int_of_cell_returns.
        intro neg. exact (H (c, col) x neg Hin Hc Hx). }
      destruct G as (l' & G). rewrite int_column_cells, G. now eexists.
    + destruct (str_in c STR_COLS) eqn:Hs;
        [rewrite norm_step_str by assumption; now eexists|].
      destruct (str_in c FLOAT_COLS) eqn:Hf;
        [rewrite norm_step_float by assumption; now eexists|].
      rewrite norm_step_other by assumption. now eexists.
Qed.


(** ** The examples of the specification *)

Lemma nodup_strs (l : list str) :
  (fix nd (l : list str) : bool :=
     match l with
     | [] => true
     | x :: l' => negb (str_in x l') && nd l'
     end) l = true -> NoDup l.
Proof.
  induction l as [|x l IH]; [constructor|].
  rewrite andb_true_iff, negb_true_iff, str_in_not_In.
  intros [H1 H2]. constructor; auto.
Qed.

Lemma spec_examples_nodup : NoDup (columns spec_examples).
Proof. apply nodup_strs. reflexivity. Qed.

Lemma spec_examples_run : normalize_df spec_examples = Ok spec_examples_normalized.
Proof. vm_compute. reflexivity. Qed.


Lemma float_cells_nonneg_witness :
  cell_at spec_examples (py "Aff%") 3 = Some (CStr (py "-3,5"))
  /\ cell_at spec_examples_normalized (py "Aff%") 3
     = Some (CFloat (FFin false 35 (-1)))
  /\ (CFloat (FFin false 35 (-1)) = NaN
      \/ nonneg_number (CFloat (FFin false 35 (-1)))).
Proof.
  split; [reflexivity|]. split; [reflexivity|].
  exact (float_cells_nonneg spec_examples spec_examples_normalized
           (py "Aff%") 3 (CFloat (FFin false 35 (-1)))
           spec_examples_nodup spec_examples_run eq_refl eq_refl).
Defined.



Lemma no_season_here (dt : char -> bool) (s : str) (j : nat) (a b : str) :
  rmatch dt SEASON_RE (skipn j s) [] k_done = None -> ~ season_at dt s j a b.
Proof.
  revert s. induction j as [|j IH]; intros s H Hs.
  - apply season_at_0 in Hs. change (skipn 0 s) with s in H. congruence.
  - destruct s as [|c s]; [now apply season_at_nil in Hs|].
    apply season_at_cons in Hs. now apply (IH s).
Qed.

Lemma extract_season_first_match_witness :
  extract_season_from_filename ascii_decimal (py "Dati_2021_2022_v2")
  = Ok (py "2021/2022", py "2021_2022").
Proof.
  refine (@extract_season_first_match ascii_decimal (py "Dati_2021_2022_v2")
            5 (py "2021") (py "2022") _ _).
  - exists (py "Dati_"), [], 95%N, [], (py "_v2").
    split; [reflexivity|]. split; [reflexivity|].
    split; [exists 50%N, 49%N; now repeat split|].
    split; [exists 50%N, 50%N; now repeat split|].
    split; [constructor|]. split; [constructor|]. now left.
  - intros j a b Hj.
    do 5 (destruct j as [|j]; [apply no_season_here; reflexivity|]).
    lia.
Defined.

Lemma normalize_df_returns_witness :
  (exists df', normalize_df spec_examples = Ok df')
  <-> int_columns_finite spec_examples.
Proof. exact (normalize_df_returns spec_examples spec_examples_nodup). Defined.


(** ** The loop body, case by case *)

Lemma mapM_raise A B (f : A -> result B) (l : list A) (e : exn) :
  mapM f l = Raise e -> exists x, In x l /\ f x = Raise e.
Proof.
  induction l as [|a l IH]; simpl; [discriminate|].
  destruct (f a) as [b|e'] eqn:Ha; simpl.
  - destruct (mapM f l) as [bs|e'']; simpl; [discriminate|].
    intros [= ->]. destruct (IH eq_refl) as (x & Hx & Hf). eauto.
  - intros [= ->]. eauto.
Qed.

Lemma astype_int_raise (x : cell) (e : exn) :
  astype_int x = Raise e -> e = IntCastingNaNError.
Proof.
  destruct x as [s|z|[|neg|neg m e']]; simpl; try discriminate; now intros [= <-].
Qed.

Lemma int_column_raise (col : column) (e : exn) :
  int_column col = Raise e -> e = IntCastingNaNError.
Proof.
  unfold int_column. intro H. apply mapM_raise in H.
  destruct H as (x & _ & H). now apply astype_int_raise in H.
Qed.

Lemma for_columns_raise (cs : list str) body (df : DataFrame) (e : exn) :
  for_columns cs body df = Raise e -> exists c d, body c d = Raise e.
Proof.
  revert df. induction cs as [|c cs IH]; intros df; simpl; [discriminate|].
  destruct (body c df) as [d|e'] eqn:Hb; simpl.
  - apply IH.
  - intros [= ->]. eauto.
Qed.

(** The only exception of the normalizer is that of [astype(int)]. *)
Lemma normalize_df_raise (df : DataFrame) (e : exn) :
  normalize_df df = Raise e -> e = IntCastingNaNError.
Proof.
  unfold normalize_df.
  match goal with |- bind ?r _ = _ -> _ => destruct r as [d1|e1] eqn:H1 end; cbn [bind].
  2: { intros [= ->]. apply for_columns_raise in H1.
       destruct H1 as (c & d & H). now destruct (str_in c STR_COLS). }
  match goal with |- bind ?r _ = _ -> _ => destruct r as [d2|e2] eqn:H2 end; cbn [bind].
  2: { intros [= ->]. apply for_columns_raise in H2.
       destruct H2 as (c & d & H). now destruct (str_in c FLOAT_COLS). }
  intro H3. apply for_columns_raise in H3. destruct H3 as (c & d & H).
  destruct (str_in c INT_COLS); [|discriminate].
  destruct (int_column (getcol d c)) as [col|e'] eqn:E; cbn [bind] in H; [discriminate|].
  injection H as ->. now apply int_column_raise in E.
Qed.

Lemma process_file_step h raw now fp st :
  file_step h raw now fp st (fst (process_file h raw now fp st))
            (snd (process_file h raw now fp st)).
Proof.
  unfold process_file.
  destruct (extract_season_from_filename (uni_decimal h) (stem fp))
    as [[lbl k]|e] eqn:Hex; cbn [fst snd].
  2: { now apply step_skip. }
  set (w2 := if str_in k (seen_seasons st)
             then log (log (rworld st) (LogReading (name fp))) (LogDuplicate k)
             else log (rworld st) (LogReading (name fp))).
  assert (Hw2 : disk w2 = disk (rworld st))
    by (unfold w2; now destruct (str_in k (seen_seasons st))).
  clearbody w2.
  destruct (read_excel_with_engine h fp SHEET_NAME) as [df|] eqn:Hrd; cbn [fst snd].
  2: { now apply step_skip. }
  destruct (ensure_required_columns df) as [|c missing] eqn:Hmiss; cbn [fst snd].
  2: { now apply step_skip. }
  destruct (if raw then Ok df else normalize_df df) as [df'|e] eqn:Hn; cbn [fst snd].
  2: { destruct raw; [discriminate|].
       pose proof (normalize_df_raise _ _ Hn) as ->.
       now apply step_raise with (df := df). }
  assert (Hdf : if raw then df' = df else normalize_df df = Ok df').
  { destruct raw; [now injection Hn as <- | assumption]. }
  unfold write_json. destruct (write_ends h (writes w2)) eqn:Hwr; cbn [fst snd].
  - apply step_written with (lbl := lbl) (k := k) (df := df) (df' := df');
      try assumption;
      cbn [rworld seasons log disk]; [reflexivity | now rewrite Hw2].
  - apply step_skip; cbn [rworld seasons log disk]; [reflexivity | assumption].
  - apply step_truncated with (lbl := lbl) (k := k); try assumption;
      [eauto | reflexivity | cbn [rworld seasons log disk]; now rewrite Hw2].
Qed.

(** ** The run, file by file *)

Lemma process_loop_steps h raw now (P : run_state -> Prop) :
  (forall fp st o st', P st -> file_step h raw now fp st o st' -> P st') ->
  forall files st, P st -> P (snd (process_loop h raw now files st)).
Proof.
  intros Hstep files. induction files as [|fp files IH]; intros st HP; simpl.
  - assumption.
  - pose proof (process_file_step h raw now fp st) as Hs.
    destruct (process_file h raw now fp st) as [[|e] st']; cbn [fst snd] in *.
    + apply IH. eapply Hstep; eassumption.
    + eapply Hstep; eassumption.
Qed.


Lemma setcol_columns (df : DataFrame) (c : str) (v : column) :
  columns (setcol df c v) = columns df.
Proof.
  unfold columns, setcol. rewrite map_map. apply map_ext. intro nc.
  now destruct (str_eqb (fst nc) c).
Qed.

Lemma for_columns_columns (cs : list str) body (df df' : DataFrame) :
  (forall c d d', body c d = Ok d' -> columns d' = columns d) ->
  for_columns cs body df = Ok df' -> columns df' = columns df.
Proof.
  intro Hb. revert df. induction cs as [|c cs IH]; intros df; simpl.
  - now intros [= <-].
  - destruct (body c df) as [d|e] eqn:E; cbn [bind]; [|discriminate].
    intro H. rewrite (IH _ H). eapply Hb; eassumption.
Qed.

(** The normalizer keeps the names of the columns and their order,
    whatever the names are. *)
Lemma normalize_df_columns (df df' : DataFrame) :
  normalize_df df = Ok df' -> columns df' = columns df.
Proof.
  unfold normalize_df.
  match goal with |- bind ?r _ = _ -> _ => destruct r as [d1|e1] eqn:H1 end;
    cbn [bind]; [|discriminate].
  match goal with |- bind ?r _ = _ -> _ => destruct r as [d2|e2] eqn:H2 end;
    cbn [bind]; [|discriminate].
  intro H3.
  apply for_columns_columns in H1, H2, H3.
  - congruence.
  - intros c d d'. destruct (str_in c INT_COLS); [|now intros [= <-]].
    destruct (int_column (getcol d c)); cbn [bind]; [|discriminate].
    intros [= <-]. apply setcol_columns.
  - intros c d d'. destruct (str_in c FLOAT_COLS); intros [= <-];
      [apply setcol_columns | reflexivity].
  - intros c d d'. destruct (str_in c STR_COLS); intros [= <-];
      [apply setcol_columns | reflexivity].
Qed.

Lemma ensure_empty_incl (df : DataFrame) (c : str) :
  ensure_required_columns df = [] -> In c REQUIRED_COLUMNS -> In c (columns df).
Proof.
  unfold ensure_required_columns. intros E Hc.
  destruct (str_in c (columns df)) eqn:F; [now apply str_in_In|].
  assert (G : In c (filter (fun c => negb (str_in c (columns df)))
                           REQUIRED_COLUMNS)).
  { apply filter_In. split; [assumption|]. now rewrite F. }
  rewrite E in G. destruct G.
Qed.

Lemma to_dict_records_length (df : DataFrame) :
  length (to_dict_records df) = nrows df.
Proof. unfold to_dict_records. now rewrite length_map, length_seq. Qed.

Lemma to_dict_records_keys (df : DataFrame) :
  Forall (fun r => map fst r = columns df) (to_dict_records df).
Proof.
  unfold to_dict_records. apply Forall_forall. intros r Hr.
  apply in_map_iff in Hr. destruct Hr as (i & <- & _).
  rewrite map_map. reflexivity.
Qed.

Lemma ledger_cons (fj : str * json) (new : list (str * json)) :
  ledger (fj :: new) = ledger new ++ doc_summary fj.
Proof.
  unfold ledger. cbn [rev]. rewrite flat_map_app. cbn [flat_map].
  now rewrite app_nil_r.
Qed.

Lemma file_step_ledger h raw now w0 fp st o st' :
  ledger_inv h now w0 st -> file_step h raw now fp st o st' ->
  ledger_inv h now w0 st'.
Proof.
  intros (new & Hd & Hl & Hok) Hs. inversion Hs; subst.
  - exists new. repeat split; congruence.
  - exists new. repeat split; congruence.
  - exists ((k ++ py ".json", Truncated) :: new). split; [|split].
    + now rewrite H2, Hd.
    + rewrite ledger_cons. cbn. rewrite app_nil_r. congruence.
    + constructor; [|assumption]. split; [assumption|]. now exists k.
  - exists ((k ++ py ".json",
             SeasonDoc 1 lbl k now (columns df') (to_dict_records df')) :: new).
    split; [|split].
    + now rewrite H4, Hd.
    + rewrite ledger_cons, H3, Hl. cbn. now rewrite to_dict_records_length.
    + constructor; [|assumption]. cbn.
      split; [reflexivity|]. split; [reflexivity|]. split; [reflexivity|].
      split; [|split].
      * apply extract_season_shape in H. destruct H as (y1 & y2 & ?). eauto.
      * intros c Hc.
        assert (E : columns df' = columns df).
        { destruct raw; [now subst | now apply normalize_df_columns]. }
        rewrite E. now apply ensure_empty_incl.
      * apply to_dict_records_keys.
Qed.

Lemma run_files_ledger h files raw w :
  ledger_inv h (utc_clock h (clock_reads w) ++ py "Z") w
             (snd (snd (run_files h files raw w))).
Proof.
  unfold run_files. cbn [utcnow snd].
  apply process_loop_steps with
    (P := ledger_inv h (utc_clock h (clock_reads w) ++ py "Z") w).
  - intros fp st o st'. apply file_step_ledger.
  - exists []. repeat split. constructor.
Qed.

Lemma written_spec h files raw w (new : list (str * json)) :
  disk (snd (_process_files h files raw w)) = new ++ disk w ->
  written h files raw w = new.
Proof.
  intro H. unfold written. cbv zeta. rewrite H, length_app.
  replace (length new + length (disk w) - length (disk w)) with (length new)
    by lia.
  now rewrite firstn_app, firstn_all, Nat.sub_diag, app_nil_r.
Qed.

(** What a run leaves on disk: the files of its loop and, on top, what
    became of the manifest. *)
Lemma disk_cases h files raw w (new : list (str * json)) :
  mkdir_fails h = false ->
  disk (rworld (snd (snd (run_files h files raw w)))) = new ++ disk w ->
  exists top,
    disk (snd (_process_files h files raw w)) = (top ++ new) ++ disk w
    /\ manifest_top h (snd (snd (run_files h files raw w))) top.
Proof.
  intros Hmk Hd. unfold _process_files. rewrite Hmk.
  destruct (candidate_files h files) as [|fp cands] eqn:Hc.
  { exists []. split; [|constructor]. cbn.
    unfold run_files in Hd. cbn [utcnow snd] in Hd.
    rewrite Hc in Hd. cbn in Hd. exact Hd. }
  destruct (snd (run_files h files raw w)) as [[|e] st]; cbn [snd] in *.
  - unfold update_manifest. destruct (seasons st) as [|s ss] eqn:Hs.
    + exists []. split; [exact Hd | constructor].
    + unfold write_json. destruct (write_ends h (writes (rworld st))) eqn:Hw;
        cbn [log disk].
      * exists [(MANIFEST_FILE, ManifestDoc 1 (merge_manifest (seasons st)))].
        split; [rewrite Hd, Hs; reflexivity|].
        constructor. congruence.
      * exists []. split; [exact Hd | constructor].
      * exists [(MANIFEST_FILE, Truncated)].
        split; [rewrite Hd; reflexivity|].
        apply top_truncated. eauto.
  - exists []. split; [exact Hd | constructor].
Qed.

Lemma written_cases h files raw w (new : list (str * json)) :
  mkdir_fails h = false ->
  disk (rworld (snd (snd (run_files h files raw w)))) = new ++ disk w ->
  exists top, written h files raw w = top ++ new
              /\ manifest_top h (snd (snd (run_files h files raw w))) top.
Proof.
  intros Hmk Hd.
  destruct (disk_cases h files raw w new Hmk Hd) as (top & H & Ht).
  exists top. split; [|assumption]. now apply written_spec.
Qed.

Lemma ledger_app (a b : list (str * json)) :
  ledger (a ++ b) = ledger b ++ ledger a.
Proof. unfold ledger. now rewrite rev_app_distr, flat_map_app. Qed.

Lemma candidate_files_in h (files : list Path) (fp : Path) :
  In fp (candidate_files h files) ->
  In fp files /\ is_file h fp = true
  /\ (lower h (suffix fp) = py ".xls" \/ lower h (suffix fp) = py ".xlsx").
Proof.
  unfold candidate_files. intro H.
  apply (Permutation_in _ (sorted_perm _ _)) in H.
  apply filter_In in H. destruct H as [H1 H2].
  apply andb_true_iff in H2. destruct H2 as [H2 H3].
  apply str_in_In in H3. cbn in H3.
  repeat split; try assumption. intuition auto.
Qed.



Lemma written_nothing h files raw w :
  mkdir_fails h = true -> written h files raw w = [].
Proof.
  intro Hmk. apply written_spec. unfold _process_files. now rewrite Hmk.
Qed.

(** X3. The summaries of a run are those of the season documents it
    wrote, one for one and in the order of writing: each summary carries
    the label, the key and the timestamp of its document, the name of the
    file that holds it, and as [n_players] the number of its player
    records.  A document whose write raised has no summary. *)
Theorem summaries_mirror_documents
        (h : host) (files : list Path) (raw_mode : bool) (w : world) :
  ledger (written h files raw_mode w)
  = if mkdir_fails h then [] else run_summaries h files raw_mode w.
Proof.
  destruct (mkdir_fails h) eqn:Hmk.
  { now rewrite written_nothing. }
  destruct (run_files_ledger h files raw_mode w) as (new & Hd & Hl & _).
  destruct (written_cases h files raw_mode w new Hmk Hd) as (top & -> & Ht).
  rewrite ledger_app, Hl. unfold run_summaries.
  destruct Ht; reflexivity || apply app_nil_r.
Qed.

(** X4. Every file a run writes is well formed.  A season document has
    schema version 1, is named after its key, carries a label and a key
    made of the same two years, has every one of the 34 required columns
    among its columns, in raw mode too, and each of its player records
    has exactly its columns as keys; a manifest is named [seasons.json],
    has schema version 1 and lists the merge of the summaries of the run;
    a truncated file is left only by a write that raised after opening
    the file. *)
Theorem written_documents_valid
        (h : host) (files : list Path) (raw_mode : bool) (w : world) :
  Forall (valid_document h (utc_clock h (clock_reads w) ++ py "Z")
                         (run_summaries h files raw_mode w))
         (written h files raw_mode w).
Proof.
  destruct (mkdir_fails h) eqn:Hmk.
  { rewrite written_nothing by assumption. constructor. }
  destruct (run_files_ledger h files raw_mode w) as (new & Hd & _ & Hok).
  destruct (written_cases h files raw_mode w new Hmk Hd) as (top & -> & Ht).
  apply Forall_app. split.
  - destruct Ht as [|Hne|Hn]; repeat constructor; try assumption.
  - eapply Forall_impl; [|exact Hok].
    intros [f j]. unfold valid_document, season_doc_ok. cbn [fst snd].
    destruct j; [auto | contradiction | now intros [? _]].
Qed.

Lemma snoc_split A (l l1 l2 : list A) (t s : A) :
  l ++ [t] = l1 ++ s :: l2 ->
  (l2 = [] /\ s = t /\ l1 = l)
  \/ exists l2', l2 = l2' ++ [t] /\ l = l1 ++ s :: l2'.
Proof.
  destruct l2 as [|x l2] using rev_ind; intro H.
  - apply app_inj_tail in H. destruct H as [-> ->]. now left.
  - right. exists l2. rewrite app_comm_cons, app_assoc in H.
    apply app_inj_tail in H. destruct H as [-> ->]. auto.
Qed.

(** Where every write ends well, the summary that is the last of its key
    names the file that the journal holds the document of. *)
Lemma ledger_lookup h now (new d0 : list (str * json)) (s : summary) :
  (forall n, write_ends h n <> WriteFailsLate) ->
  Forall (season_doc_ok h now) new ->
  last_of_its_key (ledger new) s ->
  file s = key s ++ py ".json"
  /\ file s <> MANIFEST_FILE
  /\ exists cols players,
       dict_get (new ++ d0) (file s)
       = Some (SeasonDoc 1 (label s) (key s) (last_updated s) cols players)
       /\ length players = n_players s.
Proof.
  intros Hlate Hok. revert s. induction Hok as [|[f j] new Hfj Hok IH]; intros s Hs.
  - destruct Hs as (l1 & l2 & E & _). now destruct l1.
  - rewrite ledger_cons in Hs. unfold season_doc_ok in Hfj. cbn [fst snd] in Hfj.
    destruct j as [v l k g cols players| |].
    2: { contradiction. }
    2: { destruct Hfj as [(n & Hn) _]. now apply Hlate in Hn. }
    destruct Hfj as (-> & -> & -> & (y1 & y2 & (d1 & d2 & -> & _) & _ & -> & ->)
                     & _ & _).
    destruct Hs as (l1 & l2 & E & Hl2). cbn [doc_summary fst snd] in E.
    apply snoc_split in E. destruct E as [(-> & -> & ->) | (l2' & -> & E)].
    + cbn [file key label last_updated n_players].
      split; [reflexivity|]. split; [discriminate|].
      exists cols, players. split; [|reflexivity].
      cbn [app dict_get]. now rewrite str_eqb_refl.
    + assert (Hk : season_key [50; 48; d1; d2]%N y2 <> key s).
      { apply (Hl2 {| label := season_label [50; 48; d1; d2]%N y2;
                      key := season_key [50; 48; d1; d2]%N y2;
                      file := season_key [50; 48; d1; d2]%N y2 ++ py ".json";
                      n_players := length players; last_updated := now |}).
        apply in_or_app. right. now left. }
      destruct (IH s) as (H1 & H2 & cols' & players' & H3 & H4).
      { exists l1, l2'. split; [assumption|]. intros t Ht. apply Hl2.
        apply in_or_app. now left. }
      split; [assumption|]. split; [assumption|].
      exists cols', players'. split; [|assumption].
      change (((season_key [50; 48; d1; d2]%N y2 ++ py ".json",
                SeasonDoc 1 (season_label [50; 48; d1; d2]%N y2)
                          (season_key [50; 48; d1; d2]%N y2) now cols players)
               :: new) ++ d0)
        with ((season_key [50; 48; d1; d2]%N y2 ++ py ".json",
               SeasonDoc 1 (season_label [50; 48; d1; d2]%N y2)
                         (season_key [50; 48; d1; d2]%N y2) now cols players)
              :: (new ++ d0)).
      cbn [dict_get].
      replace (str_eqb (season_key [50; 48; d1; d2]%N y2 ++ py ".json")
                       (file s)) with false; [assumption|].
      symmetry. apply str_eqb_neq. rewrite H1. intro G.
      apply app_inv_tail in G. contradiction.
Qed.

(** X5. Where no write raises after opening its file, a manifest that
    the run writes agrees with the directory it leaves: each entry names
    a file [<key>.json] that holds, after the run, a season document of
    that key and label, stamped like the entry, with as many player
    records as the entry counts; this holds also when several inputs
    share a season, the document being that of the last of them. *)
Theorem manifest_entries_on_disk
        (h : host) (files : list Path) (raw_mode : bool) (w : world)
        (v : Z) (ss : list summary) (s : summary) :
  (forall n, write_ends h n <> WriteFailsLate) ->
  In (MANIFEST_FILE, ManifestDoc v ss) (written h files raw_mode w) ->
  In s ss ->
  file s = key s ++ py ".json"
  /\ exists cols players,
       dict_get (disk (snd (_process_files h files raw_mode w))) (file s)
       = Some (SeasonDoc 1 (label s) (key s) (last_updated s) cols players)
       /\ length players = n_players s.
Proof.
  intros Hlate Hin Hs.
  destruct (mkdir_fails h) eqn:Hmk.
  { rewrite written_nothing in Hin by assumption. destruct Hin. }
  destruct (run_files_ledger h files raw_mode w) as (new & Hd & Hl & Hok).
  destruct (disk_cases h files raw_mode w new Hmk Hd) as (top & Hdisk & Ht).
  rewrite (written_spec h files raw_mode w _ Hdisk) in Hin.
  apply in_app_or in Hin. destruct Hin as [Hin | Hin].
  2: { rewrite Forall_forall in Hok. apply Hok in Hin. destruct Hin. }
  destruct Ht as [|Hne|Hn]; [destruct Hin | | ].
  2: { destruct Hin as [[=]|[]]. }
  destruct Hin as [E|[]].
  assert (E1 : v = 1%Z) by congruence.
  assert (E2 : ss = merge_manifest
                      (seasons (snd (snd (run_files h files raw_mode w)))))
    by congruence.
  clear E. subst v. rewrite E2 in Hs. clear E2.
  apply merge_manifest_in in Hs. rewrite <- Hl in Hs.
  destruct (ledger_lookup h _ new (disk w) s Hlate Hok Hs)
    as (H1 & H2 & cols & players & H3 & H4).
  split; [assumption|]. exists cols, players. split; [|assumption].
  rewrite Hdisk, <- app_assoc. cbn [app dict_get].
  replace (str_eqb MANIFEST_FILE (file s)) with false; [assumption|].
  symmetry. apply str_eqb_neq. congruence.
Qed.

Lemma manifest_entries_on_disk_witness :
  exists cols players,
    dict_get (disk (snd (_process_files three_files_host two_files false
                                        empty_world)))
             (py "2020_2021.json")
    = Some (SeasonDoc 1 (py "2020/2021") (py "2020_2021")
                      (py "2024-01-01T00:00:00Z") cols players)
    /\ length players = 1.
Proof.
  refine (proj2 (manifest_entries_on_disk
                   three_files_host two_files false empty_world 1
                   (merge_manifest
                      (run_summaries three_files_host two_files false
                                     empty_world))
                   {| label := py "2020/2021"; key := py "2020_2021";
                      file := py "2020_2021.json"; n_players := 1;
                      last_updated := py "2024-01-01T00:00:00Z" |} _ _ _)).
  - intro n. cbn. discriminate.
  - vm_compute. left. reflexivity.
  - vm_compute. left. reflexivity.
Defined.

(** ** The normalizer: what it keeps *)

Lemma mapM_length A B (f : A -> result B) (l : list A) (l' : list B) :
  mapM f l = Ok l' -> length l' = length l.
Proof.
  revert l'. induction l as [|a l IH]; intros l'; simpl.
  - now intros [= <-].
  - destruct (f a) as [b|e]; cbn [bind]; [|discriminate].
    destruct (mapM f l) as [bs|e]; cbn [bind]; [|discriminate].
    intros [= <-]. simpl. f_equal. now apply IH.
Qed.

Lemma to_numeric_length (col : column) : length (to_numeric col) = length col.
Proof.
  unfold to_numeric. destruct (forallb num_is_int (map parse_cell col));
    now rewrite !length_map.
Qed.

Lemma norm_step_length (c : str) (col col' : column) :
  norm_step (c, col) = Ok (c, col') -> length col' = length col.
Proof.
  destruct (str_in c STR_COLS) eqn:H1.
  { rewrite norm_step_str by assumption. intros [= <-].
    unfold trim_column. apply length_map. }
  destruct (str_in c FLOAT_COLS) eqn:H2.
  { rewrite norm_step_float by assumption. intros [= <-].
    unfold float_column. now rewrite length_map, to_numeric_length, length_map. }
  destruct (str_in c INT_COLS) eqn:H3.
  { rewrite norm_step_int by assumption.
    destruct (int_column col) as [col1|e] eqn:E; cbn [bind]; [|discriminate].
    intros [= <-]. unfold int_column in E. apply mapM_length in E.
    now rewrite E, length_map, to_numeric_length. }
  rewrite norm_step_other by assumption. now intros [= <-].
Qed.

Lemma getcol_same_length (df df' : DataFrame) (c : str) :
  NoDup (columns df) -> normalize_df df = Ok df' ->
  length (getcol df' c) = length (getcol df c).
Proof.
  intros Hnd H.
  destruct (str_in c (columns df)) eqn:E.
  - apply str_in_In in E. apply norm_step_length with (c := c).
    now apply normalized_column.
  - apply str_in_not_In in E. rewrite (getcol_notin df c E).
    rewrite <- (normalized_columns df df' Hnd H) in E.
    now rewrite (getcol_notin df' c E).
Qed.

Lemma nrows_getcol (df : DataFrame) :
  nrows df = match columns df with
             | c :: _ => length (getcol df c)
             | [] => 0
             end.
Proof.
  destruct df as [|[n col] df]; [reflexivity|].
  cbn [nrows columns map fst getcol]. now rewrite str_eqb_refl.
Qed.

(** X6. The normalizer keeps the shape of a table with distinct column
    names: the names of the columns and their order, the number of cells
    of every column and so the number of rows, and every column whose
    name is in none of the three typed sets, cell for cell. *)
Theorem normalize_df_frame (df df' : DataFrame) :
  NoDup (columns df) ->
  normalize_df df = Ok df' ->
  columns df' = columns df
  /\ nrows df' = nrows df
  /\ (forall c, length (getcol df' c) = length (getcol df c))
  /\ (forall c, untyped c -> getcol df' c = getcol df c).
Proof.
  intros Hnd H.
  pose proof (normalized_columns df df' Hnd H) as Hc.
  assert (Hl : forall c, length (getcol df' c) = length (getcol df c))
    by (intro c; now apply getcol_same_length).
  split; [assumption|]. split; [|split].
  - rewrite !nrows_getcol, Hc. destruct (columns df) as [|c cs]; [reflexivity|].
    apply Hl.
  - exact Hl.
  - intros c (H1 & H2 & H3).
    destruct (str_in c (columns df)) eqn:E.
    + apply str_in_In in E.
      pose proof (normalized_column df df' c Hnd H E) as G.
      rewrite norm_step_other in G by assumption. now injection G as <-.
    + apply str_in_not_In in E. rewrite (getcol_notin df c E).
      rewrite <- Hc in E. now rewrite (getcol_notin df' c E).
Qed.

Lemma goals_example_nodup : NoDup (columns goals_example).
Proof. apply nodup_strs. reflexivity. Qed.

Lemma goals_example_run :
  normalize_df goals_example
  = Ok [(py "GF", [CInt 3; CInt (-3); CInt 7]);
        (py "Note", [CStr (py " x "); NaN; CInt 1])].
Proof. vm_compute. reflexivity. Qed.

Lemma normalize_df_frame_witness :
  columns [(py "GF", [CInt 3; CInt (-3); CInt 7]);
           (py "Note", [CStr (py " x "); NaN; CInt 1])]
  = columns goals_example
  /\ getcol [(py "GF", [CInt 3; CInt (-3); CInt 7]);
             (py "Note", [CStr (py " x "); NaN; CInt 1])] (py "Note")
     = getcol goals_example (py "Note").
Proof.
  destruct (normalize_df_frame goals_example _ goals_example_nodup
              goals_example_run) as (H1 & _ & _ & H2).
  split; [exact H1|]. apply H2. repeat split; reflexivity.
Defined.

(** ** The normalizer: string and integer columns *)

Lemma strip_stops (s : str) :
  stops_at is_space (strip s) /\ stops_at is_space (rev (strip s)).
Proof.
  unfold strip. split.
  - apply rstrip_stops, lstrip_stops.
  - unfold rstrip. rewrite rev_involutive. apply lstrip_stops.
Qed.

(** X7. In a table with distinct column names that the normalizer
    accepts, the cell of a string column holds afterwards the text of the
    cell before without the whitespace around it: a text that neither
    begins nor ends with whitespace, which is [nan] for a missing cell
    and the decimal numeral for an integer. *)
Theorem str_cells_trimmed
        (df df' : DataFrame) (c : str) (i : nat) (x : cell) :
  NoDup (columns df) ->
  normalize_df df = Ok df' ->
  str_in c STR_COLS = true ->
  cell_at df c i = Some x ->
  exists s,
    cell_at df' c i = Some (CStr s)
    /\ s = strip (astype_str x)
    /\ stops_at is_space s /\ stops_at is_space (rev s)
    /\ (x = NaN -> s = py "nan")
    /\ (forall z, x = CInt z -> s = int_repr z).
Proof.
  intros Hnd Hn Hc Hx.
  pose proof (normalized_column df df' c Hnd Hn (cell_at_in _ _ _ _ Hx)) as H.
  rewrite norm_step_str in H by assumption. injection H as H.
  exists (strip (astype_str x)).
  split; [|split; [reflexivity|]].
  - unfold cell_at in *. rewrite <- H. unfold trim_column.
    now rewrite nth_error_map, Hx.
  - split; [apply strip_stops|]. split; [apply strip_stops|]. split.
    + intros ->. reflexivity.
    + intros z ->. cbn [astype_str]. apply strip_no_space.
      unfold int_repr. apply Forall_app. split.
      * destruct (z <? 0)%Z; repeat constructor.
      * eapply Forall_impl; [|apply digits_spec].
        intros ch Hch. apply is_digit_spec in Hch. unfold is_space.
        repeat match goal with
               | |- context [(?a <=? ?b)%N] =>
                   destruct (N.leb_spec a b); try lia
               | |- context [(?a =? ?b)%N] =>
                   destruct (N.eqb_spec a b); try lia
               end.
Qed.

Lemma str_cells_trimmed_witness :
  exists s,
    cell_at spec_examples_normalized (py "Nome") 2 = Some (CStr s)
    /\ s = strip (astype_str NaN)
    /\ stops_at is_space s /\ stops_at is_space (rev s)
    /\ (NaN = NaN -> s = py "nan")
    /\ (forall z, NaN = CInt z -> s = int_repr z).
Proof.
  exact (str_cells_trimmed spec_examples spec_examples_normalized
           (py "Nome") 2 NaN spec_examples_nodup spec_examples_run
           eq_refl eq_refl).
Defined.




(** ** The candidates of a run *)

Lemma str_leb_refl (a : str) : str_leb a a = true.
Proof. unfold str_leb. now rewrite str_ltb_irrefl. Qed.

Lemma insert_by_with_name A (kf : A -> str) (k : str) (x : A) (l : list A) :
  with_name A kf k (insert_by kf x l) = with_name A kf k (x :: l).
Proof.
  unfold with_name. induction l as [|y l IH]; [reflexivity|].
  cbn [insert_by]. destruct (str_leb (kf x) (kf y)) eqn:E; [reflexivity|].
  cbn [filter] in *. rewrite IH.
  destruct (str_eqb (kf y) k) eqn:Ey, (str_eqb (kf x) k) eqn:Ex;
    try reflexivity.
  apply str_eqb_eq in Ey, Ex. rewrite Ey, Ex, str_leb_refl in E. discriminate.
Qed.

(** [sorted] is stable: the elements of one key keep their order. *)
Lemma sorted_with_name A (kf : A -> str) (k : str) (l : list A) :
  with_name A kf k (sorted kf l) = with_name A kf k l.
Proof.
  induction l as [|x l IH]; [reflexivity|].
  cbn [sorted fold_right]. fold (sorted kf l).
  rewrite insert_by_with_name. unfold with_name in *. cbn [filter].
  now rewrite IH.
Qed.

(** Sorting what is sorted changes nothing. *)
Lemma sorted_fix A (kf : A -> str) (l : list A) :
  StronglySorted (key_le kf) l -> sorted kf l = l.
Proof.
  induction 1 as [|x l Hs IH Hall]; [reflexivity|].
  cbn [sorted fold_right]. fold (sorted kf l). rewrite IH.
  destruct l as [|y l]; [reflexivity|].
  cbn [insert_by]. apply Forall_inv in Hall. unfold key_le in Hall.
  now rewrite Hall.
Qed.

Lemma filter_all A (f : A -> bool) (l : list A) :
  (forall x, In x l -> f x = true) -> filter f l = l.
Proof.
  induction l as [|x l IH]; intro H; [reflexivity|].
  cbn [filter]. rewrite (H x (or_introl eq_refl)). f_equal.
  apply IH. intros y Hy. apply H. now right.
Qed.

Lemma candidate_files_eq h (files : list Path) :
  candidate_files h files
  = sorted (fun p => lower h (name p)) (filter (is_candidate h) files).
Proof. reflexivity. Qed.

(** X9. The candidates of a run are the inputs that are files with the
    extension [.xls] or [.xlsx] in any case, each as often as it was
    given, in ascending order of their lower-cased names; inputs of one
    lower-cased name keep the order in which they were given, so that
    the one given last is processed last; and selecting the candidates
    of the candidates changes nothing, as when the folder listing that
    [main] has sorted already is handed over. *)
Theorem candidate_files_spec (h : host) (files : list Path) :
  Permutation (candidate_files h files) (filter (is_candidate h) files)
  /\ StronglySorted (key_le (fun p => lower h (name p)))
                    (candidate_files h files)
  /\ (forall k, with_name Path (fun p => lower h (name p)) k
                          (candidate_files h files)
                = with_name Path (fun p => lower h (name p)) k
                            (filter (is_candidate h) files))
  /\ candidate_files h (candidate_files h files) = candidate_files h files.
Proof.
  rewrite candidate_files_eq.
  split; [apply sorted_perm|]. split; [apply sorted_sorted|].
  split; [intro k; apply sorted_with_name|].
  rewrite candidate_files_eq. rewrite filter_all.
  - apply sorted_fix, sorted_sorted.
  - intros p Hp. apply (Permutation_in _ (sorted_perm _ _)) in Hp.
    now apply filter_In in Hp.
Qed.

(** X10. Every candidate is read with the engine of its extension:
    [openpyxl] when the lower-cased extension is [.xlsx], and [xlrd]
    when it is [.xls]; the filter of line 137 leaves no other case to
    the [else] of line 72. *)
Theorem candidates_engine
        (h : host) (files : list Path) (fp : Path) (sheet : str) :
  In fp (candidate_files h files) ->
  (lower h (suffix fp) = py ".xlsx"
   /\ read_excel_with_engine h fp sheet = pd_read_excel h fp sheet Openpyxl)
  \/ (lower h (suffix fp) = py ".xls"
      /\ read_excel_with_engine h fp sheet = pd_read_excel h fp sheet Xlrd).
Proof.
  intro H. apply candidate_files_in in H. destruct H as (_ & _ & [E|E]);
    unfold read_excel_with_engine; rewrite E; [right | left]; now split.
Qed.

Lemma candidates_engine_witness :
  (lower three_files_host (suffix {| parent := py "old";
                                     name := py "2021_2022.xlsx" |})
   = py ".xlsx"
   /\ read_excel_with_engine three_files_host
        {| parent := py "old"; name := py "2021_2022.xlsx" |} SHEET_NAME
      = pd_read_excel three_files_host
          {| parent := py "old"; name := py "2021_2022.xlsx" |} SHEET_NAME
          Openpyxl)
  \/ (lower three_files_host (suffix {| parent := py "old";
                                        name := py "2021_2022.xlsx" |})
      = py ".xls"
      /\ read_excel_with_engine three_files_host
           {| parent := py "old"; name := py "2021_2022.xlsx" |} SHEET_NAME
         = pd_read_excel three_files_host
             {| parent := py "old"; name := py "2021_2022.xlsx" |} SHEET_NAME
             Xlrd).
Proof.
  apply (candidates_engine three_files_host same_name_files).
  vm_compute. right. right. left. reflexivity.
Defined.

(** ** The season of a key *)

(** X11. The label and the key that the extractor returns name the same
    season again: read as a stem, each of them gives back that label and
    that key, so the key is a fixed point of the extraction. *)
Theorem extract_season_round_trip
        (is_decimal : char -> bool) (s lbl k : str) :
  extract_season_from_filename is_decimal s = Ok (lbl, k) ->
  extract_season_from_filename is_decimal k = Ok (lbl, k)
  /\ extract_season_from_filename is_decimal lbl = Ok (lbl, k).
Proof.
  intro H. apply extract_season_shape in H.
  destruct H as (y1 & y2 & Hy1 & Hy2 & -> & ->).
  assert (G : forall c, In c SEPARATORS ->
                extract_season_from_filename is_decimal (y1 ++ [c] ++ y2)
                = Ok (season_label y1 y2, season_key y1 y2)).
  { intros c Hc. unfold extract_season_from_filename.
    rewrite re_search_eq.
    rewrite (@season_at_0 is_decimal (y1 ++ [c] ++ y2) y1 y2); [reflexivity|].
    exists [], [], c, [], []. cbn [app length]. rewrite app_nil_r.
    repeat split; auto. }
  split; [apply (G 95%N) | apply (G 47%N)]; cbn; auto.
Qed.

Lemma extract_season_round_trip_witness :
  extract_season_from_filename ascii_decimal (py "2021_2022")
  = Ok (py "2021/2022", py "2021_2022")
  /\ extract_season_from_filename ascii_decimal (py "2021/2022")
     = Ok (py "2021/2022", py "2021_2022").
Proof.
  exact (extract_season_round_trip ascii_decimal (py "Dati_2021_2022_v2")
           (py "2021/2022") (py "2021_2022") eq_refl).
Defined.

(** ** The files of the input field *)

Lemma re_split_nonempty (s : str) : re_split s <> [].
Proof.
  induction s as [|c s IH]; [discriminate|].
  cbn [re_split]. destruct (is_list_sep c).
  - destruct s as [|c' s]; [discriminate|].
    destruct (is_list_sep c'); [assumption | discriminate].
  - destruct (re_split s); discriminate.
Qed.

Lemma re_split_pieces (s : str) :
  Forall (Forall (fun c => is_list_sep c = false)) (re_split s).
Proof.
  induction s as [|c s IH]; [repeat constructor|].
  cbn [re_split]. destruct (is_list_sep c) eqn:E.
  - destruct s as [|c' s]; [repeat constructor|].
    destruct (is_list_sep c'); [assumption | now constructor].
  - destruct (re_split s) as [|p ps]; [repeat constructor; assumption|].
    inversion IH; subst. constructor; [now constructor | assumption].
Qed.

Lemma lstrip_Forall (P : char -> Prop) (s : str) :
  Forall P s -> Forall P (lstrip s).
Proof.
  induction 1 as [|c s Hc Hs IH]; [constructor|].
  cbn [lstrip]. destruct (is_space c); [assumption | now constructor].
Qed.

Lemma lstrip_char_Forall (P : char -> Prop) (q : char) (s : str) :
  Forall P s -> Forall P (lstrip_char q s).
Proof.
  induction 1 as [|c s Hc Hs IH]; [constructor|].
  cbn [lstrip_char]. destruct (char_eqb c q); [assumption | now constructor].
Qed.

Lemma Forall_rev_str (P : char -> Prop) (s : str) :
  Forall P s -> Forall P (rev s).
Proof. intro H. apply Forall_forall. intros c Hc. apply in_rev in Hc.
  rewrite Forall_forall in H. now apply H. Qed.

Lemma strip_Forall (P : char -> Prop) (s : str) :
  Forall P s -> Forall P (strip s).
Proof.
  intro H. unfold strip, rstrip.
  now apply Forall_rev_str, lstrip_Forall, Forall_rev_str, lstrip_Forall.
Qed.

Lemma strip_char_Forall (P : char -> Prop) (q : char) (s : str) :
  Forall P s -> Forall P (strip_char q s).
Proof.
  intro H. unfold strip_char.
  now apply Forall_rev_str, lstrip_char_Forall, Forall_rev_str,
    lstrip_char_Forall.
Qed.

(** X12. Whatever the input field holds, none of the names taken from it
    contains a semicolon, a comma or a line break: a path with one of
    these characters in it cannot be selected through the field, it
    arrives in pieces.  A blank field selects nothing and leaves the
    choice to the input folder. *)
Theorem selected_files_no_separator :
  (forall field ns n,
     selected_files field = Some ns -> In n ns ->
     Forall (fun c => is_list_sep c = false) n)
  /\ (forall field, selected_files field = None <-> strip field = []).
Proof.
  split.
  - intros field ns n. unfold selected_files.
    destruct (strip field) as [|c0 fs]; [discriminate|].
    intros [= <-] Hin. apply in_map_iff in Hin.
    destruct Hin as (p & <- & Hp). apply filter_In in Hp.
    destruct Hp as [Hp _].
    apply strip_char_Forall, strip_Forall.
    pose proof (re_split_pieces (c0 :: fs)) as H.
    rewrite Forall_forall in H. now apply H.
  - intro field. unfold selected_files.
    destruct (strip field); split; (reflexivity || discriminate).
Qed.

Lemma firm_start_stops (s : str) : firm_start s -> stops_at is_space s.
Proof. destruct s; [intros [] | now intros [H _]]. Qed.

Lemma strip_firm (s : str) :
  firm_start s -> firm_start (rev s) -> strip s = s.
Proof.
  intros H1 H2. unfold strip, rstrip.
  rewrite (lstrip_stop s) by now apply firm_start_stops.
  rewrite (lstrip_stop (rev s)) by now apply firm_start_stops.
  apply rev_involutive.
Qed.

Lemma lstrip_char_firm (s : str) : firm_start s -> lstrip_char QUOTE s = s.
Proof.
  destruct s as [|c s]; [intros []|]. intros [_ H]. cbn [lstrip_char].
  replace (char_eqb c QUOTE) with false; [reflexivity|].
  symmetry. now apply N.eqb_neq.
Qed.

Lemma strip_char_firm (s : str) :
  firm_start s -> firm_start (rev s) -> strip_char QUOTE s = s.
Proof.
  intros H1 H2. unfold strip_char.
  rewrite (lstrip_char_firm s) by assumption.
  rewrite (lstrip_char_firm (rev s)) by assumption.
  apply rev_involutive.
Qed.

Lemma re_split_plain (n : str) :
  Forall (fun c => is_list_sep c = false) n -> re_split n = [n].
Proof.
  induction 1 as [|c n Hc Hn IH]; [reflexivity|].
  cbn [re_split]. now rewrite Hc, IH.
Qed.

Lemma re_split_app (n rest : str) :
  Forall (fun c => is_list_sep c = false) n ->
  match rest with c :: _ => is_list_sep c = false | [] => True end ->
  re_split (n ++ 59%N :: rest) = n :: re_split rest.
Proof.
  intros Hn Hr. induction Hn as [|c n Hc Hn IH].
  - cbn [app re_split]. change (is_list_sep 59%N) with true. cbv iota.
    destruct rest as [|c' rest]; [reflexivity|]. now rewrite Hr.
  - cbn [app]. cbn [re_split]. now rewrite Hc, IH.
Qed.

Lemma join_names_cons (n : str) (ns : list str) :
  ns <> [] -> join_names (n :: ns) = n ++ 59%N :: join_names ns.
Proof. destruct ns; [congruence | reflexivity]. Qed.

Lemma join_names_start (ns : list str) :
  ns <> [] -> Forall plain_name ns ->
  firm_start (join_names ns)
  /\ match join_names ns with
     | c :: _ => is_list_sep c = false
     | [] => True
     end.
Proof.
  destruct ns as [|n ns]; [congruence|]. intros _ H.
  apply Forall_inv in H. destruct H as (Hs & Hf & _).
  destruct n as [|c n]; [destruct Hf|].
  apply Forall_inv in Hs.
  destruct ns; cbn [join_names app]; auto.
Qed.

Lemma join_names_end (ns : list str) :
  ns <> [] -> Forall plain_name ns -> firm_start (rev (join_names ns)).
Proof.
  induction ns as [|n ns IH]; [congruence|]. intros _ H.
  inversion H as [|? ? Hn Hns]; subst.
  destruct ns as [|n' ns].
  - cbn [join_names]. apply Hn.
  - rewrite join_names_cons by discriminate.
    rewrite rev_app_distr. cbn [rev]. rewrite <- app_assoc.
    assert (G : firm_start (rev (join_names (n' :: ns))))
      by (apply IH; [discriminate | assumption]).
    destruct (rev (join_names (n' :: ns))); [destruct G | exact G].
Qed.

Lemma re_split_join (ns : list str) :
  ns <> [] -> Forall plain_name ns -> re_split (join_names ns) = ns.
Proof.
  induction ns as [|n ns IH]; [congruence|]. intros _ H.
  inversion H as [|? ? Hn Hns]; subst.
  destruct ns as [|n' ns].
  - cbn [join_names]. apply re_split_plain, Hn.
  - rewrite join_names_cons by discriminate.
    rewrite re_split_app.
    + f_equal. apply IH; [discriminate | assumption].
    + apply Hn.
    + apply join_names_start; [discriminate | assumption].
Qed.

(** X13. The input field gives back the names the file browser put into
    it: a non-empty list of names without separators, each beginning
    and ending with a character that is neither whitespace nor a quote,
    joined by semicolons, is read as exactly that list, in that order. *)
Theorem selected_files_join (ns : list str) :
  ns <> [] ->
  Forall plain_name ns ->
  selected_files (join_names ns) = Some ns.
Proof.
  intros Hne Hns. unfold selected_files.
  rewrite strip_firm;
    [| now apply join_names_start | now apply join_names_end].
  pose proof (join_names_start ns Hne Hns) as [Hs _].
  destruct (join_names ns) as [|c0 fs] eqn:E; [destruct Hs|].
  rewrite <- E, re_split_join by assumption. f_equal.
  rewrite filter_all.
  - rewrite <- (map_id ns) at 2. apply map_ext_in. intros n Hn.
    rewrite Forall_forall in Hns. destruct (Hns n Hn) as (_ & H1 & H2).
    rewrite strip_firm by assumption. now apply strip_char_firm.
  - intros n Hn. rewrite Forall_forall in Hns.
    destruct (Hns n Hn) as (_ & H1 & H2). rewrite strip_firm by assumption.
    destruct n; [destruct H1 | reflexivity].
Qed.

Lemma selected_files_join_witness :
  selected_files (py "C:/in/a 2020_2021.xlsx;C:/in/b_2021_2022.xls")
  = Some [py "C:/in/a 2020_2021.xlsx"; py "C:/in/b_2021_2022.xls"].
Proof.
  refine (selected_files_join
            [py "C:/in/a 2020_2021.xlsx"; py "C:/in/b_2021_2022.xls"] _ _).
  - discriminate.
  - repeat constructor; discriminate.
Defined.

(** ** The log of a run *)

Lemma readings_app (a b : list log_line) :
  readings (a ++ b) = readings b ++ readings a.
Proof. unfold readings. now rewrite rev_app_distr, flat_map_app. Qed.

Lemma generated_app (a b : list log_line) :
  generated (a ++ b) = generated b ++ generated a.
Proof. unfold generated. now rewrite rev_app_distr, flat_map_app. Qed.

Ltac lines_above l t :=
  match l with
  | t => constr:(@nil log_line)
  | ?x :: ?l' => let p := lines_above l' t in constr:(x :: p)
  end.

Ltac log_lines :=
  cbn [fst snd rworld seasons log logged];
  match goal with
  | |- exists lines added, ?l = lines ++ ?t /\ ?s = ?s0 ++ added /\ _ =>
      let p := lines_above l t in
      exists p;
      match s with
      | s0 => exists []; rewrite app_nil_r
      | s0 ++ ?a => exists a
      end;
      repeat split
  end.

Lemma process_file_log h raw now fp st :
  exists lines added,
    logged (rworld (snd (process_file h raw now fp st)))
    = lines ++ logged (rworld st)
    /\ seasons (snd (process_file h raw now fp st)) = seasons st ++ added
    /\ readings lines = [name fp]
    /\ generated lines = map (fun s => (file s, n_players s)) added.
Proof.
  unfold process_file.
  destruct (extract_season_from_filename (uni_decimal h) (stem fp))
    as [[lbl k]|e]; [|log_lines].
  destruct (read_excel_with_engine h fp SHEET_NAME) as [df|];
    [|destruct (str_in k (seen_seasons st)); log_lines].
  destruct (ensure_required_columns df) as [|c missing];
    [|destruct (str_in k (seen_seasons st)); log_lines].
  destruct (if raw then Ok df else normalize_df df) as [df'|e];
    [|destruct (str_in k (seen_seasons st)); log_lines].
  unfold write_json.
  destruct (str_in k (seen_seasons st));
    match goal with
    | |- context [write_ends h ?n] => destruct (write_ends h n)
    end; log_lines.
Qed.

Lemma process_loop_log h raw now files st :
  exists lines added,
    logged (rworld (snd (process_loop h raw now files st)))
    = lines ++ logged (rworld st)
    /\ seasons (snd (process_loop h raw now files st)) = seasons st ++ added
    /\ generated lines = map (fun s => (file s, n_players s)) added
    /\ (fst (process_loop h raw now files st) = Returned ->
        readings lines = map name files).
Proof.
  revert st. induction files as [|fp files IH]; intro st.
  - exists [], []. cbn. rewrite app_nil_r. auto.
  - cbn [process_loop].
    destruct (process_file_log h raw now fp st)
      as (l1 & a1 & H1 & H2 & H3 & H4).
    destruct (process_file h raw now fp st) as [[|e] st1]; cbn [fst snd] in *.
    + destruct (IH st1) as (l2 & a2 & G1 & G2 & G3 & G4).
      exists (l2 ++ l1), (a1 ++ a2).
      rewrite G1, H1, G2, H2, !app_assoc, generated_app, readings_app,
        map_app, H3, H4, G3.
      repeat split. intro Hr. now rewrite (G4 Hr).
    + exists l1, a1. repeat split; try assumption. discriminate.
Qed.

(** X14. The log accounts for the run.  It only grows; among the lines
    of the run, those that report a generated file are, in order, one
    for each summary of the run, with its file name and its number of
    players; and when the run returns, the lines that announce a file
    name the candidates one by one in the order of processing, and the
    last line is the closing line of the manifest or of the empty
    selection. *)
Theorem log_accounts_for_run
        (h : host) (files : list Path) (raw_mode : bool) (w : world) :
  let r := _process_files h files raw_mode w in
  exists lines,
    logged (snd r) = lines ++ logged w
    /\ generated lines
       = (if mkdir_fails h then []
          else map (fun s => (file s, n_players s))
                   (run_summaries h files raw_mode w))
    /\ (fst r = Returned ->
        readings lines = map name (candidate_files h files)
        /\ exists l rest, lines = l :: rest /\ closing_line l = true).
Proof.
  cbv zeta. unfold _process_files, run_summaries.
  destruct (mkdir_fails h).
  { exists []. repeat split; discriminate. }
  unfold run_files. cbn [utcnow snd].
  destruct (candidate_files h files) as [|fp cands] eqn:Hc.
  { exists [LogNoFiles]. cbn. repeat split. now exists LogNoFiles, []. }
  rewrite <- Hc. clear Hc.
  destruct (process_loop_log h raw_mode
              (utc_clock h (clock_reads w) ++ py "Z")
              (candidate_files h files)
              {| seasons := []; seen_seasons := [];
                 rworld := {| clock_reads := S (clock_reads w);
                              disk := disk w; writes := writes w;
                              logged := logged w |} |})
    as (lines & added & H1 & H2 & H3 & H4).
  cbn [rworld seasons logged app] in H1, H2.
  destruct (process_loop h raw_mode (utc_clock h (clock_reads w) ++ py "Z")
              (candidate_files h files) _) as [[|e] st]; cbn [fst snd] in *.
  - assert (G : exists l, closing_line l = true
                          /\ logged (update_manifest h st) = l :: logged (rworld st)).
    { unfold update_manifest. destruct (seasons st) as [|s ss].
      - now exists LogNothing.
      - unfold write_json. destruct (write_ends h (writes (rworld st)));
          cbn [log logged]; eexists; split; try reflexivity; reflexivity. }
    destruct G as (l & Hl & G). exists (l :: lines).
    rewrite G, H1, H2. split; [reflexivity|]. split.
    + change (l :: lines) with ([l] ++ lines). rewrite generated_app, H3.
      destruct l; try discriminate; apply app_nil_r.
    + intros _. split; [|now exists l, lines].
      change (l :: lines) with ([l] ++ lines). rewrite readings_app, (H4 eq_refl).
      destruct l; try discriminate; apply app_nil_r.
  - exists lines. rewrite H1, H2. split; [reflexivity|].
    split; [assumption | discriminate].
Qed.

(** ** Where the documents come from *)

Lemma process_loop_steps_in h raw now (P : run_state -> Prop)
      (files : list Path) :
  (forall fp st o st',
     In fp files -> P st -> file_step h raw now fp st o st' -> P st') ->
  forall st, P st -> P (snd (process_loop h raw now files st)).
Proof.
  induction files as [|fp files IH]; intros Hstep st HP; simpl.
  - assumption.
  - pose proof (process_file_step h raw now fp st) as Hs.
    destruct (process_file h raw now fp st) as [[|e] st']; cbn [fst snd] in *.
    + apply IH.
      * intros fp' st0 o st1 Hin. apply Hstep. now right.
      * eapply Hstep; [now left | eassumption | eassumption].
    + eapply Hstep; [now left | eassumption | eassumption].
Qed.

Lemma run_files_from_candidates h files raw w :
  exists new,
    disk (rworld (snd (snd (run_files h files raw w)))) = new ++ disk w
    /\ Forall (from_candidate h raw (candidate_files h files)) new.
Proof.
  unfold run_files. cbn [utcnow snd].
  apply process_loop_steps_in with
    (P := fun st => exists new,
              disk (rworld st) = new ++ disk w
              /\ Forall (from_candidate h raw (candidate_files h files)) new).
  - intros fp st o st' Hin (new & Hd & Hok) Hs. inversion Hs; subst.
    + exists new. split; [congruence | assumption].
    + exists new. split; [congruence | assumption].
    + exists ((k ++ py ".json", Truncated) :: new). split.
      * now rewrite H2, Hd.
      * constructor; [exact I | assumption].
    + exists ((k ++ py ".json",
               SeasonDoc 1 lbl k (utc_clock h (clock_reads w) ++ py "Z")
                         (columns df') (to_dict_records df')) :: new).
      split.
      * now rewrite H4, Hd.
      * constructor; [|assumption]. exists fp, df, df'.
        repeat (split; [assumption|]). split; [|reflexivity].
        destruct raw; [now subst | now apply normalize_df_columns].
  - exists []. split; [reflexivity | constructor].
Qed.

(** X15. Every season document a run writes is made from one of the
    candidates of the run: label and key are extracted from the stem of
    that file, the columns are those of the table read from it, in their
    order and with any extra column, and the players are the records of
    that table: as read in raw mode, as normalized otherwise. *)
Theorem documents_from_candidates
        (h : host) (files : list Path) (raw_mode : bool) (w : world) :
  Forall (from_candidate h raw_mode (candidate_files h files))
         (written h files raw_mode w).
Proof.
  destruct (mkdir_fails h) eqn:Hmk.
  { rewrite written_nothing by assumption. constructor. }
  destruct (run_files_from_candidates h files raw_mode w) as (new & Hd & Hok).
  destruct (written_cases h files raw_mode w new Hmk Hd) as (top & -> & Ht).
  apply Forall_app. split; [|assumption].
  destruct Ht; repeat constructor.
Qed.

(** ** The manifest as a function *)

Lemma strict_keys_unique (a b : list summary) :
  StronglySorted key_lt a -> StronglySorted key_lt b ->
  (forall s, In s a <-> In s b) -> a = b.
Proof.
  intro Ha. revert b. induction Ha as [|x a Hsa IH Hxa]; intros b Hb Hab.
  - destruct b as [|y b]; [reflexivity|].
    destruct (proj2 (Hab y) (or_introl eq_refl)).
  - destruct Hb as [|y b Hsb Hyb].
    { destruct (proj1 (Hab x) (or_introl eq_refl)). }
    rewrite Forall_forall in Hxa, Hyb. unfold key_lt in *.
    assert (Hirr : forall t u : summary,
               str_ltb (key t) (key u) = true ->
               str_ltb (key u) (key t) = true -> False).
    { intros t u H1 H2.
      pose proof (str_ltb_trans _ _ _ H1 H2) as H3.
      now rewrite str_ltb_irrefl in H3. }
    assert (E : x = y).
    { destruct (proj1 (Hab x) (or_introl eq_refl)) as [E|Hx]; [now symmetry|].
      destruct (proj2 (Hab y) (or_introl eq_refl)) as [E|Hy]; [assumption|].
      exfalso. exact (Hirr _ _ (Hxa _ Hy) (Hyb _ Hx)). }
    subst y. f_equal. apply IH; [assumption|].
    intro s. split; intro Hs.
    + destruct (proj1 (Hab s) (or_intror Hs)) as [E|H]; [|assumption].
      subst s. exfalso. specialize (Hxa _ Hs).
      now rewrite str_ltb_irrefl in Hxa.
    + destruct (proj2 (Hab s) (or_intror Hs)) as [E|H]; [|assumption].
      subst s. exfalso. specialize (Hyb _ Hs).
      now rewrite str_ltb_irrefl in Hyb.
Qed.

Lemma merge_manifest_sorted (l : list summary) :
  StronglySorted key_lt (merge_manifest l).
Proof.
  apply StronglySorted_map with (f := key) (R := fun a b => str_ltb a b = true).
  rewrite merge_manifest_keys. apply sorted_strict, dedup_keys_nodup.
  constructor.
Qed.

Lemma strict_keys_last (m : list summary) (s : summary) :
  StronglySorted key_lt m -> (last_of_its_key m s <-> In s m).
Proof.
  intro Hm. split.
  - intros (l1 & l2 & -> & _). apply in_elt.
  - intro Hs. apply in_split in Hs. destruct Hs as (l1 & l2 & ->).
    exists l1, l2. split; [reflexivity|]. intros t Ht E.
    clear - Hm Ht E. induction l1 as [|x l1 IH].
    + cbn in Hm. inversion Hm as [|? ? _ Hall]; subst.
      rewrite Forall_forall in Hall. specialize (Hall t Ht).
      unfold key_lt in Hall. now rewrite E, str_ltb_irrefl in Hall.
    + cbn in Hm. inversion Hm; subst. auto.
Qed.

(** X16. The merge of line 216 and 217 as a function of the summaries:
    it yields no summary exactly when it is given none, never more
    summaries than it is given, and merging what is merged changes
    nothing. *)
Theorem merge_manifest_algebra (l : list summary) :
  (merge_manifest l = [] <-> l = [])
  /\ length (merge_manifest l) <= length l
  /\ merge_manifest (merge_manifest l) = merge_manifest l.
Proof.
  split; [|split].
  - split; [|now intros ->].
    intro E. destruct l as [|x l]; [reflexivity|]. exfalso.
    destruct (@exists_last _ (x :: l)) as (l1 & s & El); [discriminate|].
    assert (H : In s (merge_manifest (x :: l))).
    { rewrite El. apply merge_manifest_in. exists l1, [].
      split; [reflexivity|]. intros t []. }
    rewrite E in H. destruct H.
  - apply NoDup_incl_length.
    + apply (NoDup_map_inv key). rewrite merge_manifest_keys.
      eapply Permutation_NoDup; [symmetry; apply sorted_perm|].
      apply dedup_keys_nodup. constructor.
    + intros s Hs. now apply merge_manifest_incl in Hs.
  - apply strict_keys_unique; try apply merge_manifest_sorted.
    intro s. rewrite merge_manifest_in. apply strict_keys_last.
    apply merge_manifest_sorted.
Qed.
